(** * FontEco: a shallow embedding of the perforation pipeline

    This development models the Python sources of [fonteco]
    ([src/fonteco/dithering.py], [src/fonteco/glyphs.py] and
    [src/fonteco/fonts.py]) and the worker thread of the GUI
    ([app/main.py]), and proves properties of them.

    Modelling conventions.
    - Python floats are Rocq primitive floats ([PrimFloat]); Python's
      [int(f)] on a float is [py_int], truncation toward zero, failing on
      infinities and NaN ([OverflowError] / [ValueError]).
    - Exceptions are the constructors of [exn]; stateful code runs in the
      state-and-exception monad [M] over a [heap] that holds every PIL image
      object (so that aliasing of images is explicit), the values handed to
      the progress callback, and the font file written by [font.save].
    - Black-box collaborators (the scipy Sobol' sampler, the numpy shuffle,
      PIL text rendering, potrace tracing, the table compilation of
      fontTools' [font.save]) are section variables. *)

From Stdlib Require Import ZArith Floats Sorting.Permutation.
From stdpp Require Import base gmap strings list.

Open Scope Z_scope.

(** ** Python exceptions *)

Inductive exn :=
  | ValueError
  | Warning
  | IndexError
  | OverflowError
  | KeyError
  | ZeroDivisionError
  | UnicodeEncodeError.

(** ** Python numbers *)

(** [int(f)] for a Python float: truncation toward zero; [int(inf)] raises
    [OverflowError], [int(nan)] raises [ValueError]. *)
Definition py_int (f : float) : exn + Z :=
  match Prim2SF f with
  | S754_zero _ => inr 0
  | S754_finite s m e =>
      let a := Z.shiftr (Zpos m) (- e) in inr (if s then - a else a)
  | S754_infinity _ => inl OverflowError
  | S754_nan => inl ValueError
  end.

(** [float(n)] for a Python [int] (also the implicit conversion of an
    [int] operand in float arithmetic): the double nearest to [n], ties to
    even. Python raises [OverflowError] from [2^1024] on; every integer the
    pipeline converts is far below that (image sizes, glyph counts, 16-bit
    font metrics and integers truncated from doubles). *)
Definition float_of_Z (z : Z) : float :=
  SF2Prim (SpecFloat.binary_normalize FloatOps.prec FloatOps.emax z 0 false).

(** [range(a, b)] *)
Definition zrange (a b : Z) : list Z :=
  map (fun k => a + Z.of_nat k) (seq 0 (Z.to_nat (b - a))).

(** [l[:n]] for an integer [n] (a negative [n] drops from the end). *)
Definition py_slice_upto {A} (l : list A) (n : Z) : list A :=
  if 0 <=? n then firstn (Z.to_nat n) l
  else firstn (Z.to_nat (Z.of_nat (length l) + n)) l.

(** ** Glyphs, images and the heap *)

(** A TrueType glyph as the pipeline touches it: its point coordinates
    ([GlyphCoordinates] stores them as doubles). *)
Record Glyph := mkGlyph { coordinates : list (float * float) }.

(** A PIL grayscale ("L") image: [size] and the pixel values. *)
Record image := mkImage {
  im_w : Z;
  im_h : Z;
  im_px : Z -> Z -> Z
}.

(** The heap: every live PIL image (an image object is its index), the
    values passed to [progress_callback], and the font written by
    [font.save] (its [glyf] table). *)
Record heap := mkHeap {
  images : list image;
  progress_log : list Z;
  saved_file : option (gmap string Glyph)
}.

Definition M (A : Type) : Type := heap -> (exn + A) * heap.

Definition ret {A} (a : A) : M A := fun h => (inr a, h).
Definition bind {A B} (m : M A) (f : A -> M B) : M B :=
  fun h => match m h with
           | (inl e, h') => (inl e, h')
           | (inr a, h') => f a h'
           end.
Definition raise {A} (e : exn) : M A := fun h => (inl e, h).
Definition lift {A} (r : exn + A) : M A := fun h => (r, h).

Notation "'let!' x <- m 'in' k" := (bind m (fun x => k))
  (at level 200, x name, m at level 100, k at level 200).
Notation "m ;; k" := (bind m (fun _ => k))
  (at level 100, k at level 200).

Definition set_images (h : heap) (l : list image) : heap :=
  mkHeap l (progress_log h) (saved_file h).

(** The image object [id]. *)
Definition get_image (id : nat) : M image :=
  fun h => match images h !! id with
           | Some im => (inr im, h)
           | None => (inl IndexError, h)
           end.

Definition put_image (id : nat) (im : image) : M unit :=
  fun h => (inr tt, set_images h (<[id := im]> (images h))).

(** A new image object (e.g. [image.copy()] or [Image.new]). *)
Definition alloc_image (im : image) : M nat :=
  fun h => (inr (length (images h)), set_images h (images h ++ [im])).

(** Pixel-access indexing of PIL: negative indices count from the end,
    anything else outside the image raises [IndexError]. *)
Definition px_index (im : image) (x y : Z) : option (Z * Z) :=
  let x' := if x <? 0 then x + im_w im else x in
  let y' := if y <? 0 then y + im_h im else y in
  if (0 <=? x') && (x' <? im_w im) && (0 <=? y') && (y' <? im_h im)
  then Some (x', y') else None.

Definition upd_px (im : image) (x y v : Z) : image :=
  mkImage (im_w im) (im_h im)
    (fun a b => if (a =? x) && (b =? y) then v else im_px im a b).

(** [pixels[x, y]] *)
Definition get_pixel (id : nat) (x y : Z) : M Z :=
  let! im <- get_image id in
  match px_index im x y with
  | Some (a, b) => ret (im_px im a b)
  | None => raise IndexError
  end.

(** [pixels[x, y] = v] *)
Definition put_pixel (id : nat) (x y v : Z) : M unit :=
  let! im <- get_image id in
  match px_index im x y with
  | Some (a, b) => put_image id (upd_px im a b v)
  | None => raise IndexError
  end.

(** Run [f] on every element in order ([for v in l: f(v)]). *)
Fixpoint for_each {A} (l : list A) (f : A -> M unit) : M unit :=
  match l with
  | [] => ret tt
  | a :: l' => f a ;; for_each l' f
  end.

(** A fallible map over a list (the first failure propagates). *)
Fixpoint mapE {A B} (f : A -> exn + B) (l : list A) : exn + list B :=
  match l with
  | [] => inr []
  | a :: l' =>
      match f a with
      | inl e => inl e
      | inr b => match mapE f l' with
                 | inl e => inl e
                 | inr bs => inr (b :: bs)
                 end
      end
  end.

Definition f100 : float := 100%float.

(** ** dithering.py *)

Section Dithering.

(** The scrambled Sobol' sampler [qmc.Sobol(d=2, scramble=True)
    .random_base2(m)] is a random black box. Its points are dyadic
    rationals [k / 2^30] of [[0, 1)] (scipy's default of 30 bits);
    [sobol_base2 m] lists their numerators. *)
Variable sobol_base2 : Z -> list (Z * Z).

Definition sobol_bits : Z := 30.

(** [generate_sobol_sequence(width, height, num_points)].
    [m = int(np.log2(num_points))]: [np.log2(0)] is [-inf] and [int] of it
    raises [OverflowError]; a negative count gives [nan] and [ValueError];
    for a positive count the truncated logarithm is the floor [Z.log2]
    (numpy's [log2] is accurate to well below the distance between
    [log2 n] and the next integer for the counts concerned). [random_base2]
    raises [ValueError] when [2^m] exceeds scipy's [maxn = 2^30]. [qmc.scale]
    refuses non-increasing bounds; [astype(int)] truncates. The products
    [k * width / 2^30] are exact in double precision for widths below 2^23. *)
Definition generate_sobol_sequence (width height num_points : Z)
    : exn + list (Z * Z) :=
  if num_points =? 0 then inl OverflowError
  else if num_points <? 0 then inl ValueError
  else
    let m := Z.log2 num_points in
    if 30 <? m then inl ValueError
    else
    let pts := sobol_base2 m in
    if (width <=? 0) || (height <=? 0) then inl ValueError
    else inr (map (fun '(a, b) =>
                     (Z.quot (a * width) (2 ^ sobol_bits),
                      Z.quot (b * height) (2 ^ sobol_bits))) pts).

End Dithering.

(** [apply_blue_noise_dithering(image, sobol_points, point_size)]: paints
    the input image object itself and returns it. *)
Definition apply_blue_noise_dithering (id : nat) (sobol_points : list (Z * Z))
    (point_size : Z) : M nat :=
  let! im <- get_image id in
  let width := im_w im in
  let height := im_h im in
  let half_size := point_size / 2 in
  let offs := zrange (- half_size) (half_size + 1) in
  for_each sobol_points (fun '(point_x, point_y) =>
    for_each offs (fun dx =>
      for_each offs (fun dy =>
        let x := point_x + dx in
        let y := point_y + dy in
        if (0 <=? x) && (x <? width) && (0 <=? y) && (y <? height)
        then put_pixel id x y 255 else ret tt))) ;;
  ret id.

(** [np.arange(start, stop, step)] for a positive step. *)
Definition np_arange (start stop step : Z) : list Z :=
  map (fun k => start + Z.of_nat k * step)
      (seq 0 (Z.to_nat ((stop - start + step - 1) / step))).

(** [np.digitize(x, bins)] for increasing [bins]: the index [i] with
    [bins[i-1] <= x < bins[i]], i.e. the number of bins [<= x]. *)
Definition np_digitize (x : Z) (bins : list Z) : Z :=
  Z.of_nat (length (List.filter (fun b => b <=? x) bins)).

(** Indexing a numpy array with a Python integer (negative from the end). *)
Definition py_index {A} (l : list A) (i : Z) : exn + A :=
  let j := if i <? 0 then i + Z.of_nat (length l) else i in
  if j <? 0 then inl IndexError
  else match l !! Z.to_nat j with
       | Some a => inr a
       | None => inl IndexError
       end.

(** The level table of [simplify_image]. *)
Definition simplify_levels (num_levels : Z) : list Z :=
  let step := 256 / (num_levels - 1) in
  let levels := np_arange 0 256 step in
  if Z.of_nat (length levels) >? num_levels
  then firstn (Z.to_nat num_levels) levels else levels.

(** [simplify_image(image, num_levels)] on the pixel rows of a grayscale
    image; [astype(np.uint8)] wraps modulo 256. *)
Definition simplify_image (img : list (list Z)) (num_levels : Z)
    : exn + list (list Z) :=
  if negb ((2 <=? num_levels) && (num_levels <=? 256)) then inl ValueError
  else
    let levels := simplify_levels num_levels in
    mapE (mapE (fun p =>
      match py_index levels (np_digitize p levels - 1) with
      | inl e => inl e
      | inr v => inr (v mod 256)
      end)) img.

(** ** Shape removal ([apply_shape_dithering]) *)

(** The [shape_size] argument: an [int] or a [str]. *)
Inductive ShapeSize :=
  | SizeInt (n : Z)
  | SizeStr (s : string).

(** [_get_random_shape_size]: its first statement raises [Warning]. *)
Definition _get_random_shape_size (min_size max_size : Z) : M Z :=
  raise Warning.

(** [_get_biggest_possible_shape]: its first statement raises [Warning]. *)
Definition _get_biggest_possible_shape (id : nat) (x y margin : Z)
    (shape_type : string) : M Z :=
  raise Warning.

(** The "Determine shape size" step. *)
Definition shape_size_at (id : nat) (x y margin : Z) (shape_type : string)
    (shape_size : ShapeSize) : M Z :=
  match shape_size with
  | SizeInt n => ret n
  | SizeStr s =>
      if String.eqb s "random" then
        let! max_size <- _get_biggest_possible_shape id x y margin shape_type in
        _get_random_shape_size (margin * 2) max_size
      else _get_biggest_possible_shape id x y margin shape_type
  end.

(** [distance < min_distance] with [distance = (d2) ** 0.5]: the square
    root of a non-negative integer is below an integer [md] exactly when
    [md > 0] and [d2 < md * md] (the double-precision square root is
    exact on perfect squares and monotone, which decides the comparison
    for the image sizes concerned). *)
Definition dist_lt (d2 md : Z) : bool := (0 <? md) && (d2 <? md * md).

(** The loop over [placed_shapes]. Its loop variable is named [shape_size]
    as the function argument, so it rebinds [shape_size] to the size of
    the last shape examined; the scan returns that binding as well. *)
Fixpoint overlap_scan (margin half_size x y : Z) (placed : list (Z * Z * Z))
    (shape_size : ShapeSize) : bool * ShapeSize :=
  match placed with
  | [] => (false, shape_size)
  | (center_x, center_y, s) :: rest =>
      let d2 := (x - center_x) ^ 2 + (y - center_y) ^ 2 in
      let min_distance := margin + half_size + s / 2 in
      if dist_lt d2 min_distance then (true, SizeInt s)
      else overlap_scan margin half_size x y rest (SizeInt s)
  end.

(** The offsets [(dx, dy)] visited by the white-pixel check and by the
    drawing, in loop order. *)
Definition shape_offsets (shape_type : string) (half_size : Z)
    : list (Z * Z) :=
  let r := zrange (- half_size) (half_size + 1) in
  flat_map (fun dx =>
    flat_map (fun dy =>
      if String.eqb shape_type "circle" then
        (if dx * dx + dy * dy <=? half_size * half_size then [(dx, dy)] else [])
      else [(dx, dy)]) r) r.

(** The white-pixel check: stops at the first white pixel. *)
Fixpoint any_white (id : nat) (x y : Z) (offs : list (Z * Z)) : M bool :=
  match offs with
  | [] => ret false
  | (dx, dy) :: offs' =>
      let! v <- get_pixel id (x + dx) (y + dy) in
      if v =? 255 then ret true else any_white id x y offs'
  end.

(** Drawing the shape. *)
Definition paint (id : nat) (x y : Z) (offs : list (Z * Z)) : M unit :=
  for_each offs (fun '(dx, dy) => put_pixel id (x + dx) (y + dy) 255).

Definition fits_bounds (x y half_size margin width height : Z) : bool :=
  (margin <=? x - half_size) && (x + half_size <? width - margin) &&
  (margin <=? y - half_size) && (y + half_size <? height - margin).

(** The main loop over the candidate centers, painting on image [r];
    returns [placed_shapes]. *)
Fixpoint shape_loop (r : nat) (shape_type : string) (margin width height : Z)
    (cands : list (Z * Z)) (shape_size : ShapeSize)
    (placed : list (Z * Z * Z)) : M (list (Z * Z * Z)) :=
  match cands with
  | [] => ret placed
  | (x, y) :: rest =>
      let! v <- get_pixel r x y in
      if v =? 255 then shape_loop r shape_type margin width height rest shape_size placed
      else
      let! size <- shape_size_at r x y margin shape_type shape_size in
      let half_size := size / 2 in
      if negb (fits_bounds x y half_size margin width height)
      then shape_loop r shape_type margin width height rest shape_size placed
      else
      let '(overlaps, shape_size') := overlap_scan margin half_size x y placed shape_size in
      if overlaps
      then shape_loop r shape_type margin width height rest shape_size' placed
      else
      let offs := shape_offsets shape_type half_size in
      let! white <- any_white r x y offs in
      if white
      then shape_loop r shape_type margin width height rest shape_size' placed
      else
        paint r x y offs ;;
        shape_loop r shape_type margin width height rest shape_size'
          (placed ++ [(x, y, size)])
  end.

(** [np.where(img_array == 0)] zipped to [(x, y)]: row-major order. *)
Definition black_pixels (im : image) : list (Z * Z) :=
  flat_map (fun y =>
    flat_map (fun x => if im_px im x y =? 0 then [(x, y)] else [])
             (zrange 0 (im_w im)))
    (zrange 0 (im_h im)).

Definition valid_shape_size (shape_size : ShapeSize) : bool :=
  match shape_size with
  | SizeInt _ => true
  | SizeStr s => String.eqb s "random" || String.eqb s "biggest"
  end.

(** [int(len(black_pixels) * (reduction_percentage / 100))] *)
Definition num_shapes_of (nblack : Z) (reduction_percentage : float) : exn + Z :=
  py_int (PrimFloat.mul (float_of_Z nblack) (PrimFloat.div reduction_percentage f100)).

(** The body of [apply_shape_dithering(image, shape_type, margin,
    shape_size, reduction_percentage)] up to its [return result]: the
    [result] image object, a fresh [image.copy()], and the final value of
    its local [placed_shapes]; [shuffle] is [np.random.shuffle]. *)
Definition shape_dithering_body (shuffle : list (Z * Z) -> list (Z * Z))
    (id : nat) (shape_type : string) (margin : Z) (shape_size : ShapeSize)
    (reduction_percentage : float) : M (nat * list (Z * Z * Z)) :=
  if negb (String.eqb shape_type "circle" || String.eqb shape_type "rectangle")
  then raise ValueError else
  if negb (valid_shape_size shape_size) then raise ValueError else
  let! im <- get_image id in
  let! result <- alloc_image im in
  let black := black_pixels im in
  let! num_shapes <- lift (num_shapes_of (Z.of_nat (length black)) reduction_percentage) in
  let! placed_shapes <- shape_loop result shape_type margin (im_w im) (im_h im)
                          (py_slice_upto (shuffle black) num_shapes) shape_size [] in
  ret (result, placed_shapes).

(** [apply_shape_dithering(...)]: returns [result]. *)
Definition apply_shape_dithering (shuffle : list (Z * Z) -> list (Z * Z))
    (id : nat) (shape_type : string) (margin : Z) (shape_size : ShapeSize)
    (reduction_percentage : float) : M nat :=
  let! res <- shape_dithering_body shuffle id shape_type margin shape_size
                reduction_percentage in
  ret (fst res).

(** ** glyphs.py: [image_to_glyph] *)

(** The [scale_factor] argument: ["AUTO"] or a number. *)
Inductive ScaleFactor :=
  | SFAuto
  | SFNum (f : float).

(** [img.shape[0]] after the resize step of [image_to_glyph]. *)
Definition canvas_height (im : image) : Z :=
  if (im_h im >? 512) || (im_w im >? 512) then 256 else im_h im.

(** [final_scale_factor]: [units_per_em / image_height] for ["AUTO"]. *)
Definition final_scale_factor (scale_factor : ScaleFactor) (units_per_em : Z)
    (im : image) : exn + float :=
  match scale_factor with
  | SFAuto =>
      if canvas_height im =? 0 then inl ZeroDivisionError
      else inr (PrimFloat.div (float_of_Z units_per_em) (float_of_Z (canvas_height im)))
  | SFNum f => inr f
  end.

(** One point of the normal-mode loop:
    [(int(x * s), int(y * -s + ascender))], stored back as doubles. *)
Definition scale_point (s : float) (ascender : Z) (p : float * float)
    : exn + (float * float) :=
  let '(x, y) := p in
  match py_int (PrimFloat.mul x s) with
  | inl e => inl e
  | inr x' =>
      match py_int (PrimFloat.add (PrimFloat.mul y (PrimFloat.opp s))
                                  (float_of_Z ascender)) with
      | inl e => inl e
      | inr y' => inr (float_of_Z x', float_of_Z y')
      end
  end.

(** Iteration [i] of the [with_bug] loop: reads [coordinates[-i]], which
    for [i > n/2] was already overwritten by an earlier iteration. *)
Definition bug_step (s : float) (n : nat)
    (acc : exn + list (float * float)) (i : nat) : exn + list (float * float) :=
  match acc with
  | inl e => inl e
  | inr cs =>
      let j := if Nat.eqb i 0 then 0%nat else (n - i)%nat in
      match cs !! j with
      | None => inl IndexError
      | Some (a, b) =>
          match py_int (PrimFloat.mul b s), py_int (PrimFloat.mul a s) with
          | inr u, inr v => inr (<[i := (float_of_Z u, float_of_Z v)]> cs)
          | inl e, _ => inl e
          | _, inl e => inl e
          end
      end
  end.

(** The loop [for i in range(len(glyph.coordinates))]. *)
Definition scale_coordinates (s : float) (ascender : Z) (with_bug : bool)
    (coords : list (float * float)) : exn + list (float * float) :=
  if negb with_bug then mapE (scale_point s ascender) coords
  else fold_left (bug_step s (length coords)) (seq 0 (length coords)) (inr coords).

(** The pixel rows of [cv2.bitwise_not(np.array(image))]. *)
Definition inverted_rows (im : image) : list (list Z) :=
  map (fun y => map (fun x => 255 - im_px im x y) (zrange 0 (im_w im)))
      (zrange 0 (im_h im)).

Section Glyphs.

(** Potrace tracing and the [TTGlyphPen] for the given render mode: the
    coordinates of [pen.glyph()], or [None] when that part raises. *)
Variable potrace_trace : string -> Z -> image -> option (list (float * float)).

(** [image_to_glyph(image, scale_factor, font, with_bug, render_mode,
    num_levels)]. The simplification of the "simplified" mode runs before
    the [try]; inside the [try] every exception is replaced by the
    [font["glyf"]["space"]] fallback (which raises [KeyError] itself when
    there is no such glyph). *)
Definition image_to_glyph (im : image) (scale_factor : ScaleFactor)
    (units_per_em ascender : Z) (glyf : gmap string Glyph) (with_bug : bool)
    (render_mode : string) (num_levels : Z) : exn + Glyph :=
  match (if String.eqb render_mode "simplified"
         then simplify_image (inverted_rows im) num_levels
         else inr []) with
  | inl e => inl e
  | inr _ =>
      let traced :=
        match potrace_trace render_mode num_levels im with
        | None => inl ValueError
        | Some coords =>
            match final_scale_factor scale_factor units_per_em im with
            | inl e => inl e
            | inr s => scale_coordinates s ascender with_bug coords
            end
        end in
      match traced with
      | inr cs => inr (mkGlyph cs)
      | inl _ =>
          match glyf !! "space" with
          | Some g => inr g
          | None => inl KeyError
          end
      end
  end.

End Glyphs.

(** ** fonts.py: the name table of [perforate_font] *)

(** [name_record.string]: raw [bytes] or a [str], as a list of code points. *)
Inductive NameString :=
  | NBytes (bs : list Z)
  | NStr (cs : list Z).

Record NameRecord := mkNameRecord { nameID : Z; nr_string : NameString }.

(** [bytes.decode('utf-16-be')] (strict errors): [None] is [UnicodeDecodeError]. *)
Fixpoint utf16be_decode (bs : list Z) : option (list Z) :=
  match bs with
  | [] => Some []
  | [_] => None
  | hi :: lo :: rest =>
      let u := hi * 256 + lo in
      if (0xD800 <=? u) && (u <=? 0xDBFF) then
        match rest with
        | hi2 :: lo2 :: rest' =>
            let u2 := hi2 * 256 + lo2 in
            if (0xDC00 <=? u2) && (u2 <=? 0xDFFF) then
              match utf16be_decode rest' with
              | Some cs => Some (0x10000 + (u - 0xD800) * 0x400 + (u2 - 0xDC00) :: cs)
              | None => None
              end
            else None
        | _ => None
        end
      else if (0xDC00 <=? u) && (u <=? 0xDFFF) then None
      else match utf16be_decode rest with
           | Some cs => Some (u :: cs)
           | None => None
           end
  end.

(** [" Eco"] and ["Font Eco"]. *)
Definition eco_suffix : list Z := [32; 69; 99; 111].

Definition font_eco : list Z := [70; 111; 110; 116] ++ eco_suffix.

(** The body of [for name_record in name_table.names] with its [try]. *)
Definition rename_record (r : NameRecord) : NameRecord :=
  if (nameID r =? 1) || (nameID r =? 4) then
    match nr_string r with
    | NStr s => mkNameRecord (nameID r) (NStr (s ++ eco_suffix))
    | NBytes bs =>
        match utf16be_decode bs with
        | Some s => mkNameRecord (nameID r) (NStr (s ++ eco_suffix))
        | None => mkNameRecord (nameID r) (NStr font_eco)
        end
    end
  else r.

Definition rename_records (names : list NameRecord) : list NameRecord :=
  map rename_record names.

(** ** fonts.py: [perforate_font] *)

(** The font as the pipeline uses it: glyph order, [glyf] table, the
    metrics read by [image_to_glyph] and the records of the [name] table. *)
Record Font := mkFont {
  glyph_order : list string;
  glyf : gmap string Glyph;
  units_per_em : Z;
  ascender : Z;
  names : list NameRecord
}.

(** The keyword arguments of [perforate_font] ([draw_images], [debug] and
    [debug_dir] at their defaults); [progress_callback] records whether a
    callback is given. *)
Record Config := mkConfig {
  reduction_percentage : float;
  point_size : Z;
  with_bug : bool;
  scale_factor : ScaleFactor;
  test : bool;
  progress_callback : bool;
  dithering_mode : string;
  render_mode : string;
  num_levels : Z;
  shape_type : string;
  shape_size : ShapeSize;
  margin : Z
}.

(** [progress_callback(progress)]: the heap records the value. *)
Definition emit (v : Z) : M unit :=
  fun h => (inr tt, mkHeap (images h) (progress_log h ++ [v]) (saved_file h)).

(** [font.save(output_font_path)] *)
Definition save_font (g : gmap string Glyph) : M unit :=
  fun h => (inr tt, mkHeap (images h) (progress_log h) (Some g)).

(** [int((i / total_glyphs) * 100)] *)
Definition progress_pct (i total : Z) : exn + Z :=
  py_int (PrimFloat.mul (PrimFloat.div (float_of_Z i) (float_of_Z total)) f100).

(** [draw.rectangle([0, 0, 512, 512], fill=255)] *)
Definition clear_image (im : image) : image :=
  mkImage (im_w im) (im_h im) (fun _ _ => 255).

(** [int(image_size[0] * image_size[1] * (reduction_percentage / 100))] *)
Definition num_points_of (reduction : float) : exn + Z :=
  py_int (PrimFloat.mul (float_of_Z (512 * 512)) (PrimFloat.div reduction f100)).

(** The post-pass: every glyph of the glyph order that was never marked
    modified gets [font["glyf"]["space"]]. *)
Definition post_pass (order : list string) (modified : gset string)
    (g : gmap string Glyph) : exn + gmap string Glyph :=
  fold_left (fun acc name =>
    match acc with
    | inl e => inl e
    | inr g' =>
        if bool_decide (name ∈ modified) then inr g'
        else match g' !! "space" with
             | Some sp => inr (<[name := sp]> g')
             | None => inl KeyError
             end
    end) order (inr g).

Section Pipeline.

Variable sobol_base2 : Z -> list (Z * Z).
Variable shuffle : list (Z * Z) -> list (Z * Z).
Variable potrace_trace : string -> Z -> image -> option (list (float * float)).
(** PIL text rendering of the glyph (direct, Cyrillic special cases or
    decomposition, all selected by the glyph name) onto the cleared canvas;
    [inl e] when PIL or the pen raises [e] there (outside any [try]). *)
Variable render_glyph : string -> image -> exn + image.
(** The compilation of the tables by [font.save]: the exception it raises,
    if any (e.g. [UnicodeEncodeError] for a Macintosh name record whose new
    string has no Mac Roman encoding). fontTools compiles the whole font
    before writing, so a failing compilation writes no file. *)
Variable compile_font : gmap string Glyph -> list NameRecord -> option exn.

Variable cfg : Config.
Variable font : Font.

(** The first statement of the loop body: the progress report. *)
Definition report_progress (i : nat) (total : Z) : M unit :=
  if progress_callback cfg then
    let! progress <- lift (progress_pct (Z.of_nat i) total) in emit progress
  else ret tt.

(** The rest of the loop body: [font["glyf"][glyph_name]], then render,
    perforate and trace one glyph; the loop state is the [glyf] table and
    [modified_glyphs]. *)
Definition perforate_glyph (canvas : nat) (glyph_name : string)
    (st : gmap string Glyph * gset string) : M (gmap string Glyph * gset string) :=
  let '(g, modified) := st in
  let! _ <- lift (match g !! glyph_name with
                  | Some glyph => inr glyph
                  | None => inl KeyError
                  end) in
  if String.eqb glyph_name ".notdef"
     || negb (bool_decide (glyph_name ∈ glyph_order font))
  then ret st
  else
  let! im <- get_image canvas in
  let! rendered <- lift (render_glyph glyph_name (clear_image im)) in
  put_image canvas rendered ;;
  let! num_points <- lift (num_points_of (reduction_percentage cfg)) in
  let! sobol_points <- lift (generate_sobol_sequence sobol_base2 512 512 num_points) in
  let! perforated <-
    (if String.eqb (dithering_mode cfg) "shape"
     then apply_shape_dithering shuffle canvas (shape_type cfg) (margin cfg)
            (shape_size cfg) (reduction_percentage cfg)
     else apply_blue_noise_dithering canvas sobol_points (point_size cfg)) in
  let! pim <- get_image perforated in
  match image_to_glyph potrace_trace pim (scale_factor cfg) (units_per_em font)
          (ascender font) g (with_bug cfg) (render_mode cfg) (num_levels cfg) with
  | inr gl => ret (<[glyph_name := gl]> g, {[glyph_name]} ∪ modified)
  | inl _ => ret st
  end.

(** The body of [for i, glyph_name in enumerate(progress_bar)]. *)
Definition process_glyph (canvas : nat) (total : Z) (i : nat) (glyph_name : string)
    (st : gmap string Glyph * gset string) : M (gmap string Glyph * gset string) :=
  report_progress i total ;; perforate_glyph canvas glyph_name st.

Fixpoint glyph_loop (canvas : nat) (total : Z) (i : nat) (names : list string)
    (st : gmap string Glyph * gset string) : M (gmap string Glyph * gset string) :=
  match names with
  | [] => ret st
  | n :: names' =>
      let! st' <- process_glyph canvas total i n st in
      glyph_loop canvas total (S i) names' st'
  end.

(** [perforate_font(input_font_path, output_font_path, ...)]: the glyph
    loop, the post-pass, the name table edits and [font.save]. *)
Definition perforate_font : M unit :=
  let! canvas <- alloc_image (mkImage 512 512 (fun _ _ => 255)) in
  let glyphs := if test cfg then firstn 20 (glyph_order font) else glyph_order font in
  let total := Z.of_nat (length glyphs) in
  let! st <- glyph_loop canvas total 0 glyphs (glyf font, ∅) in
  let '(g, modified) := st in
  let! g' <- lift (post_pass (glyph_order font) modified g) in
  let names' := rename_records (names font) in
  match compile_font g' names' with
  | Some e => raise e
  | None => save_font g'
  end.

End Pipeline.

(** A configuration with another [dithering_mode]. *)
Definition set_dithering_mode (c : Config) (mode : string) : Config :=
  mkConfig (reduction_percentage c) (point_size c) (with_bug c) (scale_factor c)
    (test c) (progress_callback c) mode (render_mode c) (num_levels c)
    (shape_type c) (shape_size c) (margin c).

(** ** Concrete collaborators and inputs

    Small deterministic instances of the black boxes, used to run the
    model on concrete inputs. *)

(** A Sobol' sampler whose [2^m] points all sit at the origin. *)
Definition sobol_origin (m : Z) : list (Z * Z) := repeat (0, 0) (Z.to_nat (2 ^ m)).

(** A tracer producing one point [(1, 0)]. *)
Definition trace_one (_ : string) (_ : Z) (_ : image) : option (list (float * float)) :=
  Some [(1%float, 0%float)].

(** Rendering that inks one pixel. *)
Definition render_dot (_ : string) (im : image) : exn + image := inr (upd_px im 100 100 0).

(** A [font.save] whose compilation succeeds. *)
Definition compile_ok (_ : gmap string Glyph) (_ : list NameRecord) : option exn := None.

(** A family name record ["Test"] stored as UTF-16-BE bytes. *)
Definition test_names : list NameRecord := [mkNameRecord 1 (NBytes [0; 84; 0; 101; 0; 115; 0; 116])].

Definition empty_glyph : Glyph := mkGlyph [].

(** A font with [.notdef], [space] and [A]. *)
Definition font_with_space : Font :=
  mkFont [".notdef"; "space"; "A"]
    (<[".notdef" := empty_glyph]> (<["space" := empty_glyph]> (<["A" := empty_glyph]> ∅)))
    1000 800 test_names.

(** A font with [.notdef] and [A] only: no [space] glyph. *)
Definition font_without_space : Font :=
  mkFont [".notdef"; "A"]
    (<[".notdef" := empty_glyph]> (<["A" := empty_glyph]> ∅)) 1000 800 test_names.

(** The defaults of [perforate_font] with a progress callback, the given
    [dithering_mode] and [reduction_percentage]. *)
Definition default_config (mode : string) (reduction : float) : Config :=
  mkConfig reduction 1 false SFAuto false true mode "original" 2 "circle" (SizeInt 10) 1.

Definition empty_heap : heap := mkHeap [] [] None.

(** [perforate_font] with the concrete collaborators. *)
Definition run_pipeline (c : Config) (f : Font) : (exn + unit) * heap :=
  perforate_font sobol_origin id trace_one render_dot compile_ok c f empty_heap.

(** The 512 x 512 white canvas. *)
Definition white_canvas : image := mkImage 512 512 (fun _ _ => 255).

(** A 3 x 3 white image with one black pixel in the middle. *)
Definition one_dot_image : image :=
  mkImage 3 3 (fun x y => if (x =? 1) && (y =? 1) then 0 else 255).

(** A 7 x 7 all-black image. *)
Definition black_square : image := mkImage 7 7 (fun _ _ => 0).

(** ** Predicates used in the statements *)

(** [m] changes nothing but the image objects. *)
Definition only_images {A} (m : M A) : Prop :=
  forall h, exists l, snd (m h) = set_images h l.

(** [m] leaves the heap as it is. *)
Definition reads_only {A} (m : M A) : Prop :=
  forall h, snd (m h) = h.

(** [m] changes no image object other than [r]. *)
Definition writes_only {A} (r : nat) (m : M A) : Prop :=
  forall h j, j <> r -> images (snd (m h)) !! j = images h !! j.




(** [m] returns only values satisfying [P]. *)
Definition returns_in {A} (P : A -> Prop) (m : M A) : Prop :=
  forall h a h', m h = (inr a, h') -> P a.

(** [m] leaves the saved file as it is. *)
Definition keeps_saved {A} (m : M A) : Prop :=
  forall h, saved_file (snd (m h)) = saved_file h.

(** The loop state after a glyph: [.notdef] is never marked modified and
    the [space] entry of [glyf] is untouched when [space] is not in the
    glyph order. *)
Definition loop_inv (font : Font) (st : gmap string Glyph * gset string) : Prop :=
  (".notdef" ∉ snd st) /\ fst st !! "space" = glyf font !! "space".

(** ** Further code: the blue-noise variants and the footprint of dithering *)

(** glyphs.py [apply_blue_noise_dithering(image, sobol_points)]: one pixel per point. *)
Definition apply_blue_noise_dithering_glyphs (id : nat) (sobol_points : list (Z * Z)) : M nat :=
  let! im <- get_image id in
  let width := im_w im in
  let height := im_h im in
  for_each sobol_points (fun '(point_x, point_y) =>
    if (0 <=? point_x) && (point_x <? width) && (0 <=? point_y) && (point_y <? height)
    then put_pixel id point_x point_y 255 else ret tt) ;;
  ret id.

(** [im'] is [im] with exactly the pixels of [S] set to white. *)
Definition whitened (im im' : image) (S : Z -> Z -> bool) : Prop :=
  im_w im' = im_w im /\ im_h im' = im_h im /\
  forall a b, im_px im' a b = if S a b then 255 else im_px im a b.

(** [m] whitens the set [S] of image [id] (of size [w] x [hh]) and nothing else. *)
Definition whitens (id : nat) (w hh : Z) (m : M unit) (S : Z -> Z -> bool) : Prop :=
  forall h im, images h !! id = Some im -> im_w im = w -> im_h im = hh ->
    exists im', m h = (inr tt, set_images h (<[id := im']> (images h))) /\ whitened im im' S.

Definition in_bounds (w hh x y : Z) : bool := (0 <=? x) && (x <? w) && (0 <=? y) && (y <? hh).

(** The pixels the dithering.py loop sets, in its loop order. *)
Definition blue_noise_set (w hh half : Z) (pts : list (Z * Z)) (a b : Z) : bool :=
  let offs := zrange (- half) (half + 1) in
  existsb (fun '(px, py) =>
    existsb (fun dx => existsb (fun dy =>
      in_bounds w hh (px + dx) (py + dy) && (a =? px + dx) && (b =? py + dy)) offs) offs) pts.

Definition blue_noise_covered (w hh half : Z) (pts : list (Z * Z)) (a b : Z) : Prop :=
  exists px py dx dy, In (px, py) pts /\ - half <= dx <= half /\ - half <= dy <= half /\
    0 <= px + dx < w /\ 0 <= py + dy < hh /\ a = px + dx /\ b = py + dy.

(** [im'] has the size of [im] and each of its pixels is the one of [im] or white. *)
Definition lighter (im im' : image) : Prop :=
  im_w im' = im_w im /\ im_h im' = im_h im /\
  forall a b, im_px im' a b = im_px im a b \/ im_px im' a b = 255.

(** ** Further code: [simplify_image] in closed form *)

(** [step = 256 // (num_levels - 1)] of [simplify_image]. *)

Definition simplify_step (num_levels : Z) : Z := 256 / (num_levels - 1).

(** The number of levels kept: [len(np.arange(0, 256, step))] capped at
    [num_levels]. *)

Definition level_count (num_levels : Z) : Z :=
  Z.min num_levels ((256 + simplify_step num_levels - 1) / simplify_step num_levels).

(** The closed form of one output pixel. *)
Definition simplified_value (num_levels p : Z) : Z :=
  let step := simplify_step num_levels in
  let L := level_count num_levels in
  if p <? 0 then step * (L - 1) else step * Z.min (p / step) (L - 1).

(** The right-hand side of one [with_bug] assignment, applied to the pair read. *)
Definition bug_point (s : float) (p : float * float) : exn + (float * float) :=
  let '(a, b) := p in
  match py_int (PrimFloat.mul b s), py_int (PrimFloat.mul a s) with
  | inr u, inr v => inr (float_of_Z u, float_of_Z v)
  | inl e, _ => inl e
  | _, inl e => inl e
  end.

(** The value the loop leaves at index [i] of [n] coordinates. *)
Definition bug_final (s : float) (coords : list (float * float)) (n i : nat)
    (v : float * float) : Prop :=
  ((2 * i <= n)%nat -> exists c, coords !! ((n - i) mod n)%nat = Some c /\ bug_point s c = inr v) /\
  ((2 * i > n)%nat -> exists c w, coords !! i = Some c /\ bug_point s c = inr w /\
                                  bug_point s w = inr v).

Definition bug_inv (s : float) (coords : list (float * float)) (k : nat)
    (cs : list (float * float)) : Prop :=
  length cs = length coords /\
  forall i, (i < length coords)%nat -> exists v, cs !! i = Some v /\
    ((k <= i)%nat -> coords !! i = Some v) /\ ((i < k)%nat -> bug_final s coords (length coords) i v).

Definition bug_coords : list (float * float) :=
  [(1%float, 2%float); (3%float, 4%float); (5%float, 6%float); (7%float, 8%float)].

Definition bug_scaled : list (float * float) :=
  [(4%float, 2%float); (16%float, 14%float); (12%float, 10%float); (28%float, 32%float)].

(** ** Further code: the rendering choice of [perforate_font] *)









(** ** Further code: app/main.py, the GUI worker thread *)

(** The parameters of [perforate_font], in order (none is [**kwargs]). *)
Definition perforate_font_params : list string :=
  ["input_font_path"; "output_font_path"; "reduction_percentage"; "point_size";
   "with_bug"; "draw_images"; "scale_factor"; "test"; "debug"; "progress_callback";
   "dithering_mode"; "render_mode"; "num_levels"; "debug_dir"; "shape_type";
   "shape_size"; "margin"].

(** The keys of the dict built by [MainWindow.get_options], in order. *)
Definition get_options_keys : list string :=
  ["dithering_mode"; "render_mode"; "reduction_percentage"; "point_size";
   "shape_type"; "shape_size"; "margin"; "line_type"; "curve_type"; "line_width";
   "curve"; "num_random_lines"; "scale_factor"; "test"; "debug"; "debug_dir";
   "num_levels"; "draw_images"].

(** The [TypeError]s of a keyword call. *)
Inductive CallError :=
  | MultipleValues (k : string)    (* got multiple values for keyword argument k *)
  | UnexpectedKeyword (k : string). (* got an unexpected keyword argument k *)

(** [f(k1=..., k2=..., **d)]: merging [d] into the explicit keywords. *)
Fixpoint merge_kwargs (keys : list string) (extra : list string) : CallError + list string :=
  match extra with
  | [] => inr keys
  | k :: extra' =>
      if bool_decide (k ∈ keys) then inl (MultipleValues k)
      else merge_kwargs (keys ++ [k]) extra'
  end.

(** Binding the keywords to the parameters, in keyword order. *)
Fixpoint bind_keywords (params keys : list string) : option CallError :=
  match keys with
  | [] => None
  | k :: keys' =>
      if bool_decide (k ∈ params) then bind_keywords params keys'
      else Some (UnexpectedKeyword k)
  end.

(** The signals of [FontProcessingThread]. *)
Inductive ThreadSignal :=
  | SigProgress (v : Z)
  | SigFinished
  | SigError_call (e : CallError)   (* error.emit(str(e)) for a TypeError of the call *)
  | SigError_exn (e : exn).         (* error.emit(str(e)) for an exception of perforate_font *)

Section Thread.

Context {A : Type}.

(** [FontProcessingThread.run]: [call] runs [perforate_font] on the bound
    arguments, giving its outcome and the values passed to
    [progress_callback], each emitted as a progress signal. *)
Definition font_processing_run (options : list (string * A))
    (call : list (string * A) -> (exn + unit) * list Z) : list ThreadSignal :=
  match merge_kwargs ["input_font_path"; "output_font_path"; "progress_callback"]
          (map fst options) with
  | inl e => [SigError_call e]
  | inr keys =>
      match bind_keywords perforate_font_params keys with
      | Some e => [SigError_call e]
      | None =>
          let '(r, emitted) := call options in
          map SigProgress emitted ++
          match r with
          | inl e => [SigError_exn e]
          | inr _ => [SigProgress 100; SigFinished]
          end
      end
  end.

End Thread.

(** ** Further code: the centroid paths of the ["optimized"] and
    ["optimized_masked"] render modes of [image_to_glyph]

    The distances are IEEE doubles, written with the reference semantics
    [spec_float] of the Standard Library. *)

Definition sf_inf : spec_float := S754_infinity false.

(** [np.isinf(x)] and [np.isnan(x)] *)
Definition sf_isinf (x : spec_float) : bool :=
  match x with S754_infinity _ => true | _ => false end.

Definition sf_isnan (x : spec_float) : bool :=
  match x with S754_nan => true | _ => false end.

(** numpy's [argmin] loop on doubles after its first element [mp] (at
    [min_ind]): for each next element [x] at index [i], if not [x >= mp]
    then [mp = x; min_ind = i] and stop when [x] is NaN. *)
Fixpoint argmin_go (l : list spec_float) (i min_ind : nat) (mp : spec_float) : nat :=
  match l with
  | [] => min_ind
  | x :: l' =>
      if negb (SFleb mp x) then
        if sf_isnan x then i else argmin_go l' (S i) i x
      else argmin_go l' (S i) min_ind mp
  end.

(** [np.argmin(dists)] on a non-empty array [x :: l]. *)
Definition np_argmin (x : spec_float) (l : list spec_float) : nat :=
  if sf_isnan x then 0%nat else argmin_go l 1 0 x.

(** The first index [i] with [visited[i] == False] ([np.where(~visited)[0][0]]). *)
Fixpoint first_unvisited (visited : list bool) : option nat :=
  match visited with
  | [] => None
  | v :: vs => if v then option_map S (first_unvisited vs) else Some 0%nat
  end.

Section NearestNeighbour.

(** [len(centroids)] *)
Variable n : nat.
(** [np.linalg.norm(centroids - centroids[i], axis=1)[j]] *)
Variable dist : nat -> nat -> spec_float.
(** [max_distance] *)
Variable max_distance : spec_float.
(** [np.any(np.logical_and(line_mask == 1, mask == 0))] for the segment
    drawn by [cv2.line] from centroid [i] to centroid [j]. *)
Variable line_hits_empty : nat -> nat -> bool.

(** The inner [while not valid_next and not np.all(np.isinf(dists))] loop:
    [Some (Some j)] when centroid [j] is accepted, [Some None] when the loop
    ends without one; [None] only when [fuel] runs out. *)
Fixpoint next_centroid (fuel : nat) (current : nat) (dists : list spec_float)
    : option (option nat) :=
  match fuel with
  | O => None
  | S fuel' =>
      if forallb sf_isinf dists then Some None else
      match dists with
      | [] => Some None
      | d0 :: ds =>
          let next_idx := np_argmin d0 ds in
          if SFltb max_distance (nth next_idx dists sf_inf)
          then next_centroid fuel' current (<[next_idx := sf_inf]> dists)
          else if line_hits_empty current next_idx
          then next_centroid fuel' current (<[next_idx := sf_inf]> dists)
          else Some (Some next_idx)
      end
  end.

(** [dists = np.linalg.norm(centroids - current, axis=1); dists[visited] = np.inf] *)
Definition masked_dists (current : nat) (visited : list bool) : list spec_float :=
  zip_with (fun (v : bool) (d : spec_float) => if v then sf_inf else d)
    visited (map (dist current) (seq 0 n)).

(** The outer [while not np.all(visited)] loop. *)
Fixpoint path_loop (fuel : nat) (visited : list bool) (path_order : list nat)
    : option (list nat) :=
  match fuel with
  | O => None
  | S fuel' =>
      if forallb id visited then Some path_order else
      let current := default 0%nat (last path_order) in
      match next_centroid (S n) current (masked_dists current visited) with
      | None => None
      | Some (Some next_idx) =>
          path_loop fuel' (<[next_idx := true]> visited) (path_order ++ [next_idx])
      | Some None =>
          match first_unvisited visited with
          | Some u => path_loop fuel' (<[u := true]> visited) (path_order ++ [u])
          | None => Some path_order
          end
      end
  end.

(** [visited = np.zeros(len(centroids)); path_order = [0]; visited[0] = True]
    and the loop; an empty [centroids] raises [IndexError] at [visited[0]]. *)
Definition nn_path_order : option (exn + list nat) :=
  if Nat.eqb n 0 then Some (inl IndexError)
  else option_map inr (path_loop n (<[0%nat := true]> (replicate n false)) [0%nat]).

End NearestNeighbour.

(** The ["optimized"] branch of [image_to_glyph]: [for _ in range(1,
    len(centroids))], each step appending [np.argmin(dists)] for the
    distances from the last centroid of the path, the visited ones set to
    [np.inf]; [np.argmin] of an empty array raises [ValueError]. *)
Fixpoint greedy_loop (n : nat) (dist : nat -> nat -> spec_float) (k : nat)
    (visited : list bool) (path_order : list nat) : exn + list nat :=
  match k with
  | O => inr path_order
  | S k' =>
      let last := default 0%nat (last path_order) in
      match masked_dists n dist last visited with
      | [] => inl ValueError
      | d0 :: ds =>
          let next_idx := np_argmin d0 ds in
          greedy_loop n dist k' (<[next_idx := true]> visited) (path_order ++ [next_idx])
      end
  end.

(** [visited = np.zeros(len(centroids)); path_order = [0]; visited[0] = True]
    and the loop. *)
Definition greedy_path_order (n : nat) (dist : nat -> nat -> spec_float) : exn + list nat :=
  if Nat.eqb n 0 then inl IndexError
  else greedy_loop n dist (n - 1) (<[0%nat := true]> (replicate n false)) [0%nat].

(** Three centroids on a line, at positions 0, 2 and 1; their distance is the
    absolute difference of their positions. *)
Definition line_dist (i j : nat) : spec_float :=
  let pos k := match k with 0%nat => 0%Z | 1%nat => 2%Z | _ => 1%Z end in
  match Z.abs (pos i - pos j) with
  | Z0 => S754_zero false
  | Zpos m => S754_finite false m 0
  | Zneg m => S754_finite true m 0
  end.

Definition sf_is_pinf (x : spec_float) : bool :=
  match x with S754_infinity false => true | _ => false end.

Definition count_where {A} (f : A -> bool) (l : list A) : nat := length (List.filter f l).

Definition path_inv (n : nat) (visited : list bool) (path : list nat) : Prop :=
  length visited = n /\ (forall j, visited !! j = Some true <-> In j path) /\ List.NoDup path.

(** * Properties *)

(** ** Concrete runs *)

(** C1 (counterexample). With [dithering_mode = "foo"] the pipeline runs
    to completion and writes the output font: no configuration error. *)
Lemma C1_unknown_mode_completes :
  fst (run_pipeline (default_config "foo" 20%float) font_with_space) = inr tt /\
  saved_file (snd (run_pipeline (default_config "foo" 20%float) font_with_space)) <> None.
Proof. vm_compute. split; [reflexivity | discriminate]. Qed.

(** C2 (counterexample). The point [(1, 0)] traced on the 512-pixel canvas
    with ["AUTO"] scaling ([s = 1000 / 512 = 1.953125]) is written as
    [x' = 1], while [x * s] exceeds [1 + 1/2]: [x'] is not [round(x * s)]. *)
Lemma C2_truncates_not_rounds :
  image_to_glyph trace_one white_canvas SFAuto 1000 800 ∅ false "original" 2
    = inr (mkGlyph [(1%float, 800%float)]) /\
  PrimFloat.ltb 1.5%float (PrimFloat.mul 1%float (PrimFloat.div 1000%float 512%float)) = true.
Proof. vm_compute. split; reflexivity. Qed.

(** C3 (code defect). [reduction_percentage = 0] gives [num_points = 0], and
    [generate_sobol_sequence] raises [OverflowError] ([int(np.log2(0))])
    for any sampler; the pipeline raises it on the first glyph that is not
    [.notdef], outside the [try], and no font is written. *)
Lemma C3_zero_reduction_raises :
  num_points_of 0%float = inr 0 /\
  (forall (sampler : Z -> list (Z * Z)) (w h : Z),
      generate_sobol_sequence sampler w h 0 = inl OverflowError) /\
  fst (run_pipeline (default_config "blue_noise" 0%float) font_with_space) = inl OverflowError /\
  saved_file (snd (run_pipeline (default_config "blue_noise" 0%float) font_with_space)) = None.
Proof.
  split; [vm_compute; reflexivity|].
  split; [intros; reflexivity|].
  vm_compute. split; reflexivity.
Qed.

(** C4 (counterexample). A font without a [space] glyph: the post-pass
    raises [KeyError] on [.notdef] and the run fails without writing. *)
Lemma C4_missing_space_fails :
  fst (run_pipeline (default_config "blue_noise" 20%float) font_without_space) = inl KeyError /\
  saved_file (snd (run_pipeline (default_config "blue_noise" 20%float) font_without_space)) = None.
Proof. vm_compute. split; reflexivity. Qed.

(** C5 (counterexample). On a three-glyph font the callback receives
    [0, 33, 66] and the run completes: no 100 is emitted. Also,
    [int((29 / 100) * 100)] is 28 in floating point, not 29. *)
Lemma C5_no_final_hundred :
  fst (run_pipeline (default_config "blue_noise" 20%float) font_with_space) = inr tt /\
  progress_log (snd (run_pipeline (default_config "blue_noise" 20%float) font_with_space))
    = [0; 33; 66] /\
  progress_pct 29 100 = inr 28.
Proof. vm_compute. repeat split; reflexivity. Qed.


(** C9 (counterexample). One black pixel, [shape_size = "biggest"], 20%:
    [int(1 * 0.2) = 0] candidates, so no [Warning] is raised and the copy is
    returned. *)
Lemma C9_no_candidate_no_warning :
  fst (apply_shape_dithering id 0 "circle" 1 (SizeStr "biggest") 20%float
         (mkHeap [one_dot_image] [] None)) = inr 1%nat.
Proof. vm_compute. reflexivity. Qed.

(** ** Heap frame lemmas *)

Create HintDb frame.

Lemma set_images_twice h l1 l2 : set_images (set_images h l1) l2 = set_images h l2.
Proof. reflexivity. Qed.

Lemma set_images_same h : set_images h (images h) = h.
Proof. destruct h; reflexivity. Qed.

Lemma only_images_ret {A} (a : A) : only_images (ret a).
Proof. intros h. exists (images h). symmetry. apply set_images_same. Qed.

Lemma only_images_raise {A} e : only_images (@raise A e).
Proof. intros h. exists (images h). symmetry. apply set_images_same. Qed.

Lemma only_images_lift {A} (r : exn + A) : only_images (lift r).
Proof. intros h. exists (images h). symmetry. apply set_images_same. Qed.

Lemma only_images_bind {A B} (m : M A) (f : A -> M B) :
  only_images m -> (forall a, only_images (f a)) -> only_images (bind m f).
Proof.
  intros Hm Hf h. unfold bind. destruct (Hm h) as [l Hl].
  destruct (m h) as [[e|a] h'] eqn:E; simpl in *; subst.
  - eauto.
  - destruct (Hf a (set_images h l)) as [l2 Hl2]. exists l2. rewrite Hl2. reflexivity.
Qed.

Lemma only_images_get_image id : only_images (get_image id).
Proof.
  intros h. exists (images h). unfold get_image.
  destruct (images h !! id); simpl; symmetry; apply set_images_same.
Qed.

Lemma only_images_put_image id im : only_images (put_image id im).
Proof. intros h. eexists. reflexivity. Qed.

Lemma only_images_alloc_image im : only_images (alloc_image im).
Proof. intros h. eexists. reflexivity. Qed.

Global Hint Resolve only_images_ret only_images_raise only_images_lift
  only_images_get_image only_images_put_image only_images_alloc_image : frame.

Ltac only_images_tac :=
  repeat match goal with
  | |- only_images (bind _ _) => apply only_images_bind; [|intros ?]
  | |- only_images (if ?b then _ else _) => destruct b
  | |- only_images (match ?x with _ => _ end) => destruct x
  | |- only_images (let '(_, _) := ?x in _) => destruct x
  | _ => solve [eauto with frame]
  end.

Lemma only_images_get_pixel id x y : only_images (get_pixel id x y).
Proof. unfold get_pixel. only_images_tac. Qed.

Lemma only_images_put_pixel id x y v : only_images (put_pixel id x y v).
Proof. unfold put_pixel. only_images_tac. Qed.

Global Hint Resolve only_images_get_pixel only_images_put_pixel : frame.

Lemma only_images_for_each {A} (l : list A) f :
  (forall a, only_images (f a)) -> only_images (for_each l f).
Proof.
  intros Hf. induction l as [|a l IH]; simpl; only_images_tac.
Qed.

Lemma only_images_any_white id x y offs : only_images (any_white id x y offs).
Proof. induction offs as [|[dx dy] offs IH]; simpl; only_images_tac. Qed.

Lemma only_images_paint id x y offs : only_images (paint id x y offs).
Proof. unfold paint. apply only_images_for_each. intros [dx dy]. only_images_tac. Qed.

Lemma only_images_shape_size_at id x y m st ss : only_images (shape_size_at id x y m st ss).
Proof. unfold shape_size_at, _get_biggest_possible_shape, _get_random_shape_size. only_images_tac. Qed.

Global Hint Resolve only_images_any_white only_images_paint only_images_shape_size_at : frame.

Lemma only_images_shape_loop r st m w h cands ss placed :
  only_images (shape_loop r st m w h cands ss placed).
Proof.
  revert ss placed. induction cands as [|[x y] cands IH]; intros ss placed; simpl;
    only_images_tac.
Qed.

Global Hint Resolve only_images_shape_loop : frame.

Lemma only_images_shape_dithering_body sh id st m ss red :
  only_images (shape_dithering_body sh id st m ss red).
Proof. unfold shape_dithering_body. only_images_tac. Qed.

Global Hint Resolve only_images_shape_dithering_body : frame.

Lemma only_images_apply_shape_dithering sh id st m ss red :
  only_images (apply_shape_dithering sh id st m ss red).
Proof. unfold apply_shape_dithering. only_images_tac. Qed.

Lemma only_images_apply_blue_noise_dithering id pts ps :
  only_images (apply_blue_noise_dithering id pts ps).
Proof.
  unfold apply_blue_noise_dithering. only_images_tac.
  apply only_images_for_each. intros [px py]. apply only_images_for_each. intros dx.
  apply only_images_for_each. intros dy. only_images_tac.
Qed.

Global Hint Resolve only_images_apply_shape_dithering
  only_images_apply_blue_noise_dithering : frame.

Lemma reads_only_ret {A} (a : A) : reads_only (ret a).
Proof. intros h. reflexivity. Qed.

Lemma reads_only_raise {A} e : reads_only (@raise A e).
Proof. intros h. reflexivity. Qed.

Lemma reads_only_lift {A} (r : exn + A) : reads_only (lift r).
Proof. intros h. reflexivity. Qed.

Lemma reads_only_get_image id : reads_only (get_image id).
Proof. intros h. unfold get_image. destruct (images h !! id); reflexivity. Qed.

Lemma reads_only_bind {A B} (m : M A) (f : A -> M B) :
  reads_only m -> (forall a, reads_only (f a)) -> reads_only (bind m f).
Proof.
  intros Hm Hf h. unfold bind. specialize (Hm h).
  destruct (m h) as [[e|a] h'] eqn:E; simpl in *; subst; [reflexivity | apply Hf].
Qed.

Global Hint Resolve reads_only_ret reads_only_raise reads_only_lift reads_only_get_image : frame.

Ltac reads_only_tac :=
  repeat match goal with
  | |- reads_only (bind _ _) => apply reads_only_bind; [|intros ?]
  | |- reads_only (if ?b then _ else _) => destruct b
  | |- reads_only (match ?x with _ => _ end) => destruct x
  | _ => solve [eauto with frame]
  end.

Lemma reads_only_get_pixel id x y : reads_only (get_pixel id x y).
Proof. unfold get_pixel. reads_only_tac. Qed.

Global Hint Resolve reads_only_get_pixel : frame.

Lemma reads_only_any_white id x y offs : reads_only (any_white id x y offs).
Proof. induction offs as [|[dx dy] offs IH]; simpl; reads_only_tac. Qed.

Lemma reads_only_shape_size_at id x y m st ss : reads_only (shape_size_at id x y m st ss).
Proof. unfold shape_size_at, _get_biggest_possible_shape, _get_random_shape_size. reads_only_tac. Qed.

Global Hint Resolve reads_only_any_white reads_only_shape_size_at : frame.

Lemma writes_only_of_reads_only {A} r (m : M A) : reads_only m -> writes_only r m.
Proof. intros Hm h j _. rewrite Hm. reflexivity. Qed.

Lemma writes_only_bind {A B} r (m : M A) (f : A -> M B) :
  writes_only r m -> (forall a, writes_only r (f a)) -> writes_only r (bind m f).
Proof.
  intros Hm Hf h j Hj. unfold bind. specialize (Hm h j Hj).
  destruct (m h) as [[e|a] h'] eqn:E; simpl in *; auto.
  rewrite Hf by exact Hj. exact Hm.
Qed.

Lemma writes_only_put_image r im : writes_only r (put_image r im).
Proof. intros h j Hj. simpl. apply list_lookup_insert_ne. congruence. Qed.

Global Hint Resolve writes_only_put_image : frame.

Ltac writes_only_tac :=
  repeat match goal with
  | |- writes_only _ (bind _ _) => apply writes_only_bind; [|intros ?]
  | |- writes_only _ (if ?b then _ else _) => destruct b
  | |- writes_only _ (match ?x with _ => _ end) => destruct x
  | |- writes_only _ (let '(_, _) := ?x in _) => destruct x
  | _ => solve [eauto with frame]
  | |- writes_only _ _ => apply writes_only_of_reads_only; solve [eauto with frame]
  end.

Lemma writes_only_put_pixel r x y v : writes_only r (put_pixel r x y v).
Proof. unfold put_pixel. writes_only_tac. Qed.

Global Hint Resolve writes_only_put_pixel : frame.

Lemma writes_only_for_each {A} r (l : list A) f :
  (forall a, writes_only r (f a)) -> writes_only r (for_each l f).
Proof. intros Hf. induction l as [|a l IH]; simpl; writes_only_tac. Qed.

Lemma writes_only_paint r x y offs : writes_only r (paint r x y offs).
Proof. unfold paint. apply writes_only_for_each. intros [dx dy]. writes_only_tac. Qed.

Global Hint Resolve writes_only_paint : frame.

Lemma writes_only_shape_loop r st m w h cands ss placed :
  writes_only r (shape_loop r st m w h cands ss placed).
Proof.
  revert ss placed. induction cands as [|[x y] cands IH]; intros ss placed; simpl;
    writes_only_tac.
Qed.

Lemma writes_only_apply_blue_noise_dithering id pts ps :
  writes_only id (apply_blue_noise_dithering id pts ps).
Proof.
  unfold apply_blue_noise_dithering. writes_only_tac.
  apply writes_only_for_each. intros [px py]. apply writes_only_for_each. intros dx.
  apply writes_only_for_each. intros dy. writes_only_tac.
Qed.

(** ** Images and shape removal *)

Lemma zrange_In a b k : In k (zrange a b) -> a <= k < b.
Proof.
  unfold zrange. intros Hk. apply in_map_iff in Hk as [n [<- Hn]].
  apply in_seq in Hn. lia.
Qed.

Lemma black_pixels_In im x y :
  In (x, y) (black_pixels im) ->
  im_px im x y = 0 /\ 0 <= x < im_w im /\ 0 <= y < im_h im.
Proof.
  unfold black_pixels. intros H.
  apply in_flat_map in H as [y' [Hy H]].
  apply in_flat_map in H as [x' [Hx H]].
  destruct (im_px im x' y' =? 0) eqn:E; simpl in H; [|contradiction].
  destruct H as [H|[]]. inversion H; subst.
  apply zrange_In in Hx, Hy. apply Z.eqb_eq in E. lia.
Qed.

Lemma px_index_in im x y :
  0 <= x < im_w im -> 0 <= y < im_h im -> px_index im x y = Some (x, y).
Proof.
  intros Hx Hy. unfold px_index.
  replace (x <? 0) with false by lia. replace (y <? 0) with false by lia.
  replace ((0 <=? x) && (x <? im_w im) && (0 <=? y) && (y <? im_h im)) with true by lia.
  reflexivity.
Qed.

Lemma shape_size_at_str id x y m st s h :
  shape_size_at id x y m st (SizeStr s) h = (inl Warning, h).
Proof.
  unfold shape_size_at, _get_biggest_possible_shape, _get_random_shape_size.
  destruct (String.eqb s "random"); reflexivity.
Qed.

Lemma shape_loop_str r st m w hh cands s placed h :
  snd (shape_loop r st m w hh cands (SizeStr s) placed h) = h.
Proof.
  revert placed h. induction cands as [|[x y] cands IH]; intros placed h; [reflexivity|].
  cbn [shape_loop]. unfold bind at 1.
  pose proof (reads_only_get_pixel r x y h) as G.
  destruct (get_pixel r x y h) as [[e|v] h1]; simpl in G; subst; [reflexivity|].
  destruct (v =? 255); [apply IH|].
  unfold bind. rewrite shape_size_at_str. reflexivity.
Qed.

Lemma py_slice_upto_length {A} (l : list A) (n : Z) :
  Z.of_nat (length (py_slice_upto l n)) =
    if 0 <=? n then Z.min n (Z.of_nat (length l))
    else Z.max 0 (Z.of_nat (length l) + n).
Proof.
  unfold py_slice_upto. destruct (0 <=? n) eqn:E; rewrite length_firstn; lia.
Qed.

Lemma py_slice_upto_In {A} (l : list A) (n : Z) a : In a (py_slice_upto l n) -> In a l.
Proof.
  unfold py_slice_upto. intros Hin.
  destruct (0 <=? n); [rewrite <- (firstn_skipn (Z.to_nat n) l)
                      | rewrite <- (firstn_skipn (Z.to_nat (Z.of_nat (length l) + n)) l)];
    apply in_or_app; left; exact Hin.
Qed.

(** C9 (amended). With [shape_size] "random" or "biggest" no shape is
    ever placed: a normal return hands back an unmodified copy of the
    input. For a valid [shape_type] and a shuffle that permutes the black
    pixels, with [num_shapes = int(#black * reduction_percentage / 100)],
    the candidates [black_pixels[:num_shapes]] are non-empty exactly when
    [num_shapes >= 1] and there is a black pixel, or [num_shapes < 0] and
    [#black + num_shapes > 0] (a negative slice bound counts from the end);
    the call raises [Warning] (at the first candidate) when they are
    non-empty, and otherwise returns the fresh copy of the input without
    raising. *)
Theorem C9_size_policies_place_nothing
    (shuffle : list (Z * Z) -> list (Z * Z)) (id : nat) (shape_type : string)
    (margin : Z) (s : string) (reduction : float) (h : heap)
    (Hs : s = "random" \/ s = "biggest") :
  (forall r : nat,
     fst (apply_shape_dithering shuffle id shape_type margin (SizeStr s) reduction h) = inr r ->
     images (snd (apply_shape_dithering shuffle id shape_type margin (SizeStr s) reduction h)) !! r
       = images h !! id) /\
  (forall (im : image) (n : Z),
     images h !! id = Some im ->
     (shape_type = "circle" \/ shape_type = "rectangle") ->
     (forall l, Permutation (shuffle l) l) ->
     num_shapes_of (Z.of_nat (length (black_pixels im))) reduction = inr n ->
     (py_slice_upto (shuffle (black_pixels im)) n <> [] <->
        (1 <= n /\ black_pixels im <> []) \/
        (n < 0 /\ 0 < Z.of_nat (length (black_pixels im)) + n)) /\
     (py_slice_upto (shuffle (black_pixels im)) n <> [] ->
        fst (apply_shape_dithering shuffle id shape_type margin (SizeStr s) reduction h)
          = inl Warning) /\
     (py_slice_upto (shuffle (black_pixels im)) n = [] ->
        apply_shape_dithering shuffle id shape_type margin (SizeStr s) reduction h
          = (inr (length (images h)), set_images h (images h ++ [im])))).
Proof.
  assert (Hv : valid_shape_size (SizeStr s) = true)
    by (destruct Hs as [-> | ->]; reflexivity).
  split.
  - intros r. unfold apply_shape_dithering, shape_dithering_body, bind, get_image,
      alloc_image, lift, ret, raise.
    rewrite Hv.
    destruct (String.eqb shape_type "circle" || String.eqb shape_type "rectangle");
      simpl; [|intros ?; discriminate].
    destruct (images h !! id) as [im|] eqn:Hid; [|simpl; intros ?; discriminate].
    simpl.
    destruct (num_shapes_of _ _) as [e|n]; [simpl; intros ?; discriminate|].
    match goal with |- context [shape_loop ?r' ?a ?b ?c ?d ?e ?f ?g ?hh] =>
      pose proof (shape_loop_str r' a b c d e s g hh) as W;
      destruct (shape_loop r' a b c d e f g hh) as [[ex|pl] h2] eqn:E end;
    simpl in *; [intros ?; discriminate|].
    intros Hr. inversion Hr; subst. simpl. rewrite lookup_app_r by lia.
    replace (length (images h) - length (images h))%nat with 0%nat by lia. reflexivity.
  - intros im n Hid Hst Hperm Hn.
    assert (Hlen : length (shuffle (black_pixels im)) = length (black_pixels im))
      by (apply Permutation_length, Hperm).
    assert (Hnil : black_pixels im = [] <-> length (black_pixels im) = 0%nat)
      by (split; [intros ->; reflexivity | apply length_zero_iff_nil]).
    assert (Hc : forall A (l : list A), l <> [] <-> (0 < length l)%nat).
    { intros A l. destruct l; simpl; split; intros H; try lia; congruence. }
    assert (Hrun : apply_shape_dithering shuffle id shape_type margin (SizeStr s) reduction h
                   = (shape_loop (length (images h)) shape_type margin (im_w im) (im_h im)
                        (py_slice_upto (shuffle (black_pixels im)) n) (SizeStr s) [] ;;
                      ret (length (images h))) (set_images h (images h ++ [im]))).
    { unfold apply_shape_dithering, shape_dithering_body, bind, get_image, alloc_image,
        lift, ret, raise.
      rewrite Hv.
      replace (String.eqb shape_type "circle" || String.eqb shape_type "rectangle")
        with true by (destruct Hst as [-> | ->]; reflexivity).
      simpl. rewrite Hid. simpl. rewrite Hn.
      destruct (shape_loop _ _ _ _ _ _ _ _ _) as [[e|pl] h2]; reflexivity. }
    split; [|split].
    + pose proof (py_slice_upto_length (shuffle (black_pixels im)) n) as L.
      rewrite Hlen in L. rewrite Hc, Hnil.
      destruct (0 <=? n) eqn:En; lia.
    + intros Hne. rewrite Hrun.
      destruct (py_slice_upto (shuffle (black_pixels im)) n) as [|[x y] rest] eqn:Esl;
        [contradiction|].
      assert (Hin : In (x, y) (black_pixels im)).
      { eapply Permutation_in; [apply Hperm|]. eapply py_slice_upto_In.
        rewrite Esl. left. reflexivity. }
      apply black_pixels_In in Hin as (Hpx & Hx & Hy).
      cbn [shape_loop]. unfold bind at 2, get_pixel, bind, get_image. simpl.
      rewrite lookup_app_r by lia.
      replace (length (images h) - length (images h))%nat with 0%nat by lia. simpl.
      rewrite px_index_in by lia. unfold ret. rewrite Hpx. simpl.
      destruct (String.eqb s "random"); reflexivity.
    + intros Hempty. rewrite Hrun, Hempty. reflexivity.
Qed.

Lemma shape_dithering_body_keeps_input
    (shuffle : list (Z * Z) -> list (Z * Z)) (id : nat) (shape_type : string)
    (margin : Z) (shape_size : ShapeSize) (reduction : float) (h : heap) :
  images (snd (shape_dithering_body shuffle id shape_type margin shape_size reduction h)) !! id
    = images h !! id.
Proof.
  unfold shape_dithering_body.
  destruct (negb _); [reflexivity|]. destruct (negb _); [reflexivity|].
  unfold bind at 1, get_image at 1.
  destruct (images h !! id) as [im|] eqn:Hid; [|simpl; exact Hid].
  pose proof (lookup_lt_Some _ _ _ Hid) as Hlt.
  unfold bind at 1, alloc_image at 1. simpl.
  unfold bind at 1, lift at 1.
  destruct (num_shapes_of _ _) as [e|n]; [simpl; rewrite lookup_app_l by exact Hlt; exact Hid|].
  unfold bind at 1.
  match goal with |- context [shape_loop ?r ?a ?b ?c ?d ?e ?f ?g ?hh] =>
    pose proof (writes_only_shape_loop r a b c d e f g hh id ltac:(lia)) as W;
    destruct (shape_loop r a b c d e f g hh) as [[ex|pl] h2] eqn:E end;
  simpl in *; rewrite W; simpl; rewrite lookup_app_l by exact Hlt; exact Hid.
Qed.

(** C10. [apply_shape_dithering] never changes its input image object: it
    paints a fresh [image.copy()]; whereas [apply_blue_noise_dithering]
    returns the very object it was given (and paints it in place). *)
Theorem C10_shape_dithering_keeps_input
    (shuffle : list (Z * Z) -> list (Z * Z)) (id : nat) (shape_type : string)
    (margin : Z) (shape_size : ShapeSize) (reduction : float) (h : heap) :
  images (snd (apply_shape_dithering shuffle id shape_type margin shape_size reduction h)) !! id
    = images h !! id /\
  (forall (pts : list (Z * Z)) (point_size : Z) (h' : heap),
     match fst (apply_blue_noise_dithering id pts point_size h') with
     | inr r => r = id
     | inl _ => True
     end).
Proof.
  split.
  - unfold apply_shape_dithering, bind at 1.
    rewrite <- (shape_dithering_body_keeps_input shuffle id shape_type margin shape_size
                  reduction h).
    destruct (shape_dithering_body _ _ _ _ _ _ h) as [[e|res] h2]; reflexivity.
  - intros pts ps h'. unfold apply_blue_noise_dithering.
    unfold bind at 1, get_image at 1.
    destruct (images h' !! id) as [im|]; [|exact I].
    unfold bind at 1. simpl.
    match goal with |- context [for_each ?l ?f ?hh] => destruct (for_each l f hh) as [[e|[]] h2] end;
    simpl; auto.
Qed.


(** ** Quantisation *)

Lemma mapE_Forall {A B} (f : A -> exn + B) (P : B -> Prop) (l : list A) :
  (forall a, In a l -> exists b, f a = inr b /\ P b) ->
  exists bs, mapE f l = inr bs /\ Forall P bs.
Proof.
  induction l as [|a l IH]; intros H; simpl.
  - exists []. split; [reflexivity | constructor].
  - destruct (H a (or_introl eq_refl)) as [b [Hb Pb]]. rewrite Hb.
    destruct IH as [bs [Hbs Pbs]]; [intros a' Ha'; apply H; right; exact Ha'|].
    rewrite Hbs. exists (b :: bs). split; [reflexivity | constructor; assumption].
Qed.

Lemma np_arange_length start stop step :
  length (np_arange start stop step) = Z.to_nat ((stop - start + step - 1) / step).
Proof. unfold np_arange. rewrite length_map, length_seq. reflexivity. Qed.

Lemma simplify_levels_length n :
  2 <= n <= 256 ->
  (1 <= length (simplify_levels n))%nat /\ Z.of_nat (length (simplify_levels n)) <= n.
Proof.
  intros Hn. unfold simplify_levels.
  set (step := 256 / (n - 1)).
  assert (Hstep : 1 <= step).
  { unfold step. apply Z.div_le_lower_bound; lia. }
  assert (Hlen : 1 <= (0 + 256 - 0 + step - 1 - 0) / step).
  { apply Z.div_le_lower_bound; lia. }
  pose proof (np_arange_length 0 256 step) as L.
  replace (256 - 0 + step - 1) with (256 + step - 1) in L by lia.
  assert (Hlen' : 1 <= (256 + step - 1) / step) by (apply Z.div_le_lower_bound; lia).
  destruct (Z.of_nat (length (np_arange 0 256 step)) >? n) eqn:E.
  - rewrite length_firstn. lia.
  - lia.
Qed.

Lemma py_index_In {A} (l : list A) i v : py_index l i = inr v -> In v l.
Proof.
  unfold py_index. destruct (_ <? 0); [discriminate|].
  destruct (l !! _) eqn:E; intros H; inversion H; subst.
  apply list_elem_of_In. eapply list_elem_of_lookup_2. exact E.
Qed.

Lemma py_index_ok {A} (l : list A) i :
  (1 <= length l)%nat -> -1 <= i < Z.of_nat (length l) -> exists v, py_index l i = inr v.
Proof.
  intros Hl Hi. unfold py_index.
  set (j := if i <? 0 then i + Z.of_nat (length l) else i).
  assert (Hj : 0 <= j < Z.of_nat (length l)).
  { unfold j. destruct (i <? 0) eqn:E; [apply Z.ltb_lt in E | apply Z.ltb_ge in E]; lia. }
  replace (j <? 0) with false by lia.
  destruct (l !! Z.to_nat j) eqn:E; [eauto|].
  apply lookup_ge_None in E. lia.
Qed.

Lemma np_digitize_range p l : 0 <= np_digitize p l <= Z.of_nat (length l).
Proof.
  unfold np_digitize. pose proof (List.filter_length_le (fun b => b <=? p) l). lia.
Qed.

(** C8. For 2 <= n <= 256, [simplify_image] maps every pixel to one of at
    most [n] values (its level table, reduced modulo 256); any other [n] is
    rejected with [ValueError] before a pixel is read. *)
Theorem C8_simplify_at_most_n_levels (img : list (list Z)) (num_levels : Z) :
  (2 <= num_levels <= 256 ->
     exists out, simplify_image img num_levels = inr out /\
       Z.of_nat (length (nodup Z.eq_dec (concat out))) <= num_levels) /\
  (~ (2 <= num_levels <= 256) -> simplify_image img num_levels = inl ValueError).
Proof.
  split.
  - intros Hn. unfold simplify_image.
    replace ((2 <=? num_levels) && (num_levels <=? 256)) with true by lia. simpl negb. cbv iota.
    set (levels := simplify_levels num_levels).
    destruct (simplify_levels_length num_levels Hn) as [L1 L2]. fold levels in L1, L2.
    set (allowed := map (fun v => v mod 256) levels).
    match goal with |- context [mapE ?g img] =>
      destruct (mapE_Forall g (Forall (fun v => In v allowed)) img) as [out [Hout Pout]] end.
    { intros row _. apply mapE_Forall. intros p _.
      pose proof (np_digitize_range p levels).
      destruct (py_index_ok levels (np_digitize p levels - 1) L1 ltac:(lia)) as [v Hv].
      rewrite Hv. exists (v mod 256). split; [reflexivity|].
      apply (in_map (fun v => v mod 256)). eapply py_index_In. exact Hv. }
    exists out. split; [exact Hout|].
    assert (Hincl : incl (nodup Z.eq_dec (concat out)) allowed).
    { intros v Hv. apply nodup_In in Hv. apply in_concat in Hv as [row [Hrow Hv]].
      rewrite List.Forall_forall in Pout. specialize (Pout row Hrow).
      rewrite List.Forall_forall in Pout. apply Pout. exact Hv. }
    pose proof (NoDup_incl_length (NoDup_nodup Z.eq_dec (concat out)) Hincl) as HL.
    unfold allowed in HL. rewrite length_map in HL. lia.
  - intros Hn. unfold simplify_image.
    replace ((2 <=? num_levels) && (num_levels <=? 256)) with false by lia. reflexivity.
Qed.

Lemma C8_simplify_at_most_n_levels_witness :
  (exists out, simplify_image [[0; 100; 200; 255]] 4 = inr out /\
     Z.of_nat (length (nodup Z.eq_dec (concat out))) <= 4) /\
  simplify_image [[0]] 300 = inl ValueError.
Proof.
  split.
  - apply (proj1 (C8_simplify_at_most_n_levels [[0; 100; 200; 255]] 4)). lia.
  - apply (proj2 (C8_simplify_at_most_n_levels [[0]] 300)). lia.
Defined.

(** ** Sobol' points *)




(** ** Separation of placed shapes *)





Lemma put_pixel_spec r x y v h h' im :
  images h !! r = Some im -> put_pixel r x y v h = (inr tt, h') ->
  exists a b, px_index im x y = Some (a, b) /\
    h' = set_images h (<[r := upd_px im a b v]> (images h)).
Proof.
  intros Him H. unfold put_pixel, bind, get_image in H. rewrite Him in H.
  destruct (px_index im x y) as [[a b]|]; [|discriminate].
  unfold put_image in H. inversion H. eauto.
Qed.



Lemma lighter_refl im : lighter im im.
Proof. repeat split. intros a b. left. reflexivity. Qed.

Lemma lighter_trans i1 i2 i3 : lighter i1 i2 -> lighter i2 i3 -> lighter i1 i3.
Proof.
  intros (Hw1 & Hh1 & H1) (Hw2 & Hh2 & H2). split; [congruence|]. split; [congruence|].
  intros a b. destruct (H2 a b) as [E|E]; [rewrite E; apply H1 | right; exact E].
Qed.

Lemma paint_lighter r x y offs h h' im :
  images h !! r = Some im ->
  paint r x y offs h = (inr tt, h') ->
  exists im', images h' !! r = Some im' /\ lighter im im'.
Proof.
  unfold paint. revert h im. induction offs as [|[dx dy] offs IH]; intros h im Him H.
  - simpl in H. inversion H; subst. exists im. split; [exact Him | apply lighter_refl].
  - cbn [for_each] in H. unfold bind at 1 in H.
    destruct (put_pixel r (x + dx) (y + dy) 255 h) as [[e|[]] h1] eqn:E1; [discriminate|].
    destruct (put_pixel_spec _ _ _ _ _ _ _ Him E1) as (a0 & b0 & Ep & ->).
    assert (Hlt : (r < length (images h))%nat) by (eapply lookup_lt_Some; exact Him).
    assert (Hl : images (set_images h (<[r:=upd_px im a0 b0 255]> (images h))) !! r
                 = Some (upd_px im a0 b0 255)).
    { simpl. apply list_lookup_insert_eq. exact Hlt. }
    destruct (IH _ _ Hl H) as (im' & Him' & Hlight).
    exists im'. split; [exact Him'|]. eapply lighter_trans; [|exact Hlight].
    split; [reflexivity|]. split; [reflexivity|]. intros a b. simpl.
    destruct ((a =? a0) && (b =? b0)); [right | left]; reflexivity.
Qed.

Lemma shape_loop_lighter r st margin w hh cands ss placed h res h' im0 im :
  images h !! r = Some im -> lighter im0 im ->
  shape_loop r st margin w hh cands ss placed h = (inr res, h') ->
  exists im', images h' !! r = Some im' /\ lighter im0 im'.
Proof.
  revert ss placed h im. induction cands as [|[x y] cands IH];
    intros ss placed h im Him Hinv H.
  - simpl in H. inversion H; subst. eauto.
  - cbn [shape_loop] in H. unfold bind in H.
    pose proof (reads_only_get_pixel r x y h) as R1.
    destruct (get_pixel r x y h) as [[e|v] h1]; [discriminate|]. simpl in R1; subst h1.
    destruct (v =? 255); [eapply IH; eauto|].
    pose proof (reads_only_shape_size_at r x y margin st ss h) as R2.
    destruct (shape_size_at r x y margin st ss h) as [[e|size] h2]; [discriminate|].
    simpl in R2; subst h2.
    destruct (negb _); [eapply IH; eauto|].
    destruct (overlap_scan margin (size / 2) x y placed ss) as [ov ss'] eqn:Eov.
    destruct ov; [eapply IH; eauto|].
    pose proof (reads_only_any_white r x y (shape_offsets st (size / 2)) h) as R3.
    destruct (any_white _ _ _ _ h) as [[e|wt] h3]; [discriminate|].
    simpl in R3; subst h3.
    destruct wt; [eapply IH; eauto|].
    destruct (paint r x y (shape_offsets st (size / 2)) h) as [[e|[]] h4] eqn:Ep;
      [discriminate|].
    destruct (paint_lighter _ _ _ _ _ _ _ Him Ep) as (im' & Him' & Hl').
    eapply IH; [exact Him' | eapply lighter_trans; eassumption | exact H].
Qed.





(** ** Dithering modes *)

Section ModeIrrelevance.
Variable sobol_base2 : Z -> list (Z * Z).
Variable shuffle : list (Z * Z) -> list (Z * Z).
Variable potrace_trace : string -> Z -> image -> option (list (float * float)).
Variable render_glyph : string -> image -> exn + image.
Variable cfg : Config.
Variable font : Font.
Variable mode : string.
Hypothesis Hmode : String.eqb mode "shape" = false.

Lemma perforate_glyph_mode canvas name st h :
  perforate_glyph sobol_base2 shuffle potrace_trace render_glyph (set_dithering_mode cfg mode) font canvas name st h =
  perforate_glyph sobol_base2 shuffle potrace_trace render_glyph (set_dithering_mode cfg "blue_noise") font canvas name st h.
Proof.
  unfold perforate_glyph, set_dithering_mode. destruct st as [g m].
  cbn [dithering_mode reduction_percentage point_size with_bug scale_factor
       render_mode num_levels shape_type shape_size margin].
  rewrite Hmode. reflexivity.
Qed.

Lemma process_glyph_mode canvas total i name st h :
  process_glyph sobol_base2 shuffle potrace_trace render_glyph (set_dithering_mode cfg mode) font canvas total i name st h =
  process_glyph sobol_base2 shuffle potrace_trace render_glyph (set_dithering_mode cfg "blue_noise") font canvas total i name st h.
Proof.
  unfold process_glyph, bind.
  assert (E : report_progress (set_dithering_mode cfg mode) i total h = report_progress (set_dithering_mode cfg "blue_noise") i total h) by reflexivity.
  rewrite E. destruct (report_progress (set_dithering_mode cfg "blue_noise") i total h) as [[e|[]] h1]; [reflexivity|].
  apply perforate_glyph_mode.
Qed.

Lemma glyph_loop_mode canvas total i names st h :
  glyph_loop sobol_base2 shuffle potrace_trace render_glyph (set_dithering_mode cfg mode) font canvas total i names st h =
  glyph_loop sobol_base2 shuffle potrace_trace render_glyph (set_dithering_mode cfg "blue_noise") font canvas total i names st h.
Proof.
  revert i st h. induction names as [|n names IH]; intros i st h; [reflexivity|].
  cbn [glyph_loop]. unfold bind. rewrite process_glyph_mode.
  destruct (process_glyph _ _ _ _ (set_dithering_mode cfg "blue_noise") _ _ _ _ _ _ h) as [[e|st'] h1]; [reflexivity|].
  apply IH.
Qed.

End ModeIrrelevance.

(** C1 (amended). [dithering_mode] is not validated: any value other than
    "shape" (e.g. "foo") runs exactly as "blue_noise" does, same result and
    same final heap, so no configuration error is raised for it. *)
Theorem C1_unknown_mode_runs_blue_noise sobol_base2 shuffle potrace_trace render_glyph compile_font
    cfg font mode h :
  String.eqb mode "shape" = false ->
  perforate_font sobol_base2 shuffle potrace_trace render_glyph compile_font
    (set_dithering_mode cfg mode) font h =
  perforate_font sobol_base2 shuffle potrace_trace render_glyph compile_font
    (set_dithering_mode cfg "blue_noise") font h.
Proof.
  intros Hm. unfold perforate_font, bind.
  cbn [test set_dithering_mode].
  destruct (alloc_image _ h) as [[e|canvas] h1]; [reflexivity|].
  rewrite glyph_loop_mode by exact Hm. reflexivity.
Qed.

Lemma C1_unknown_mode_runs_blue_noise_witness :
  run_pipeline (set_dithering_mode (default_config "foo" 20%float) "foo") font_with_space =
  run_pipeline (set_dithering_mode (default_config "foo" 20%float) "blue_noise") font_with_space.
Proof.
  apply C1_unknown_mode_runs_blue_noise. reflexivity.
Defined.

(** ** Coordinate transform *)

Lemma mapE_lookup {A B} (f : A -> exn + B) l l' k a :
  mapE f l = inr l' -> l !! k = Some a -> exists b, f a = inr b /\ l' !! k = Some b.
Proof.
  revert l' k. induction l as [|a0 l IH]; intros l' k H Hk; [discriminate|].
  simpl in H. destruct (f a0) as [e|b0] eqn:Ef; [discriminate|].
  destruct (mapE f l) as [e|bs] eqn:El; [discriminate|]. inversion H; subst.
  destruct k as [|k]; simpl in Hk.
  - inversion Hk; subst. exists b0. split; [exact Ef | reflexivity].
  - destruct (IH bs k eq_refl Hk) as (b & Hb & Hbk). exists b. split; [exact Hb | exact Hbk].
Qed.

(** ** Post-pass and progress reports *)

Lemma returns_in_ret {A} (P : A -> Prop) a : P a -> returns_in P (ret a).
Proof. intros Ha h b h' E. inversion E; subst. exact Ha. Qed.

Lemma returns_in_bind {A B} (Q : A -> Prop) (P : B -> Prop) (m : M A) (f : A -> M B) :
  returns_in Q m -> (forall a, Q a -> returns_in P (f a)) -> returns_in P (bind m f).
Proof.
  intros Hm Hf h b h' E. unfold bind in E.
  destruct (m h) as [[e|a] h1] eqn:Em; [discriminate|].
  exact (Hf a (Hm _ _ _ Em) _ _ _ E).
Qed.

Lemma returns_in_True {A} (m : M A) : returns_in (fun _ => True) m.
Proof. intros h a h' _. exact I. Qed.

Lemma keeps_saved_of_only_images {A} (m : M A) : only_images m -> keeps_saved m.
Proof. intros Hm h. destruct (Hm h) as [l Hl]. rewrite Hl. reflexivity. Qed.

Lemma keeps_saved_bind {A B} (m : M A) (f : A -> M B) :
  keeps_saved m -> (forall a, keeps_saved (f a)) -> keeps_saved (bind m f).
Proof.
  intros Hm Hf h. unfold bind. specialize (Hm h).
  destruct (m h) as [[e|a] h1]; simpl in *; [exact Hm|]. rewrite Hf. exact Hm.
Qed.

Lemma keeps_saved_emit v : keeps_saved (emit v).
Proof. intros h. reflexivity. Qed.

(** One step of the post-pass fold. *)
Lemma post_pass_inl (order : list string) (modified : gset string) e :
  fold_left (fun (acc : exn + gmap string Glyph) (name : string) =>
    match acc with
    | inl e => inl e
    | inr g' =>
        if bool_decide (name ∈ modified) then inr g'
        else match g' !! "space" with
             | Some sp => inr (<[name := sp]> g')
             | None => inl KeyError
             end
    end) order (inl e) = inl e.
Proof. induction order as [|n order IH]; [reflexivity|]. exact IH. Qed.

Lemma post_pass_space order modified g sp :
  g !! "space" = Some sp ->
  exists g', post_pass order modified g = inr g' /\
    forall n, g' !! n = if bool_decide (n ∈ order /\ n ∉ modified) then Some sp else g !! n.
Proof.
  unfold post_pass. revert g. induction order as [|name order IH]; intros g Hg.
  - exists g. split; [reflexivity|]. intros n.
    rewrite bool_decide_eq_false_2; [reflexivity|]. intros [Hn _]. inversion Hn.
  - cbn [fold_left]. destruct (bool_decide (name ∈ modified)) eqn:Em.
    + destruct (IH g Hg) as (g' & Hp & Hl). exists g'. split; [exact Hp|].
      intros n. rewrite Hl. apply bool_decide_eq_true_1 in Em.
      destruct (decide (n ∈ order /\ n ∉ modified)) as [Hd|Hd].
      * rewrite !bool_decide_eq_true_2; [reflexivity | |exact Hd].
        split; [apply elem_of_cons; right; apply Hd | apply Hd].
      * rewrite (bool_decide_eq_false_2 _ Hd).
        rewrite bool_decide_eq_false_2; [reflexivity|].
        intros [Hn Hm]. apply elem_of_cons in Hn as [->|Hn]; [contradiction|].
        apply Hd. split; assumption.
    + rewrite Hg. apply bool_decide_eq_false_1 in Em.
      assert (Hg1 : <[name:=sp]> g !! "space" = Some sp).
      { destruct (decide (name = "space")) as [->|Hne].
        - apply lookup_insert_eq.
        - rewrite lookup_insert_ne by congruence. exact Hg. }
      destruct (IH _ Hg1) as (g' & Hp & Hl). exists g'. split; [exact Hp|].
      intros n. rewrite Hl.
      destruct (decide (n ∈ order /\ n ∉ modified)) as [Hd|Hd].
      * rewrite !bool_decide_eq_true_2; [reflexivity | |exact Hd].
        split; [apply elem_of_cons; right; apply Hd | apply Hd].
      * rewrite (bool_decide_eq_false_2 _ Hd).
        destruct (decide (n = name)) as [->|Hne].
        -- rewrite lookup_insert_eq, bool_decide_eq_true_2; [reflexivity|].
           split; [apply elem_of_cons; left; reflexivity | exact Em].
        -- rewrite lookup_insert_ne by congruence.
           rewrite bool_decide_eq_false_2; [reflexivity|].
           intros [Hn Hm]. apply elem_of_cons in Hn as [->|Hn]; [contradiction|].
           apply Hd. split; assumption.
Qed.

Lemma post_pass_no_space order modified g n :
  g !! "space" = None -> n ∈ order -> n ∉ modified ->
  post_pass order modified g = inl KeyError.
Proof.
  unfold post_pass. intros Hg. induction order as [|name order IH]; intros Hn Hm.
  - inversion Hn.
  - cbn [fold_left]. destruct (bool_decide (name ∈ modified)) eqn:Em.
    + apply bool_decide_eq_true_1 in Em.
      apply elem_of_cons in Hn as [->|Hn]; [contradiction|]. exact (IH Hn Hm).
    + rewrite Hg. apply post_pass_inl.
Qed.

Section PipelineFacts.
Variable sobol_base2 : Z -> list (Z * Z).
Variable shuffle : list (Z * Z) -> list (Z * Z).
Variable potrace_trace : string -> Z -> image -> option (list (float * float)).
Variable render_glyph : string -> image -> exn + image.
Variable cfg : Config.
Variable font : Font.


Lemma only_images_perforate_glyph canvas name st : only_images (perforate_glyph sobol_base2 shuffle potrace_trace render_glyph cfg font canvas name st).
Proof.
  unfold perforate_glyph. destruct st as [g m]. only_images_tac.
Qed.

Lemma keeps_saved_glyph_loop canvas total i names st :
  keeps_saved (glyph_loop sobol_base2 shuffle potrace_trace render_glyph cfg font canvas total i names st).
Proof.
  revert i st. induction names as [|n names IH]; intros i st; simpl.
  - apply keeps_saved_of_only_images, only_images_ret.
  - apply keeps_saved_bind; [|intros; apply IH].
    unfold process_glyph. apply keeps_saved_bind.
    + unfold report_progress. destruct (progress_callback cfg).
      * apply keeps_saved_bind; [apply keeps_saved_of_only_images, only_images_lift|].
        intros; apply keeps_saved_emit.
      * apply keeps_saved_of_only_images, only_images_ret.
    + intros; apply keeps_saved_of_only_images, only_images_perforate_glyph.
Qed.

Lemma returns_in_perforate_glyph canvas name st :
  "space" ∉ glyph_order font -> loop_inv font st ->
  returns_in (loop_inv font) (perforate_glyph sobol_base2 shuffle potrace_trace render_glyph cfg font canvas name st).
Proof.
  intros Hsp Hst. unfold perforate_glyph. destruct st as [g m].
  apply (returns_in_bind (fun _ => True)); [apply returns_in_True | intros ? _].
  destruct (String.eqb name ".notdef" || negb (bool_decide (name ∈ glyph_order font)))
    eqn:Eskip; [apply returns_in_ret; exact Hst|].
  apply orb_false_iff in Eskip as [En Eo].
  apply negb_false_iff, bool_decide_eq_true_1 in Eo.
  apply String.eqb_neq in En.
  repeat (apply (returns_in_bind (fun _ => True)); [apply returns_in_True | intros ? _]).
  destruct (image_to_glyph _ _ _ _ _ _ _ _ _); apply returns_in_ret; [exact Hst|].
  destruct Hst as [H1 H2]. split; simpl.
  - rewrite elem_of_union, elem_of_singleton. intros [Heq|Hm]; [congruence | exact (H1 Hm)].
  - rewrite lookup_insert_ne; [exact H2|]. intros ->. exact (Hsp Eo).
Qed.

Lemma returns_in_glyph_loop canvas total i names st :
  "space" ∉ glyph_order font -> loop_inv font st ->
  returns_in (loop_inv font) (glyph_loop sobol_base2 shuffle potrace_trace render_glyph cfg font canvas total i names st).
Proof.
  intros Hsp. revert i st. induction names as [|n names IH]; intros i st Hst; simpl.
  - apply returns_in_ret. exact Hst.
  - apply (returns_in_bind (loop_inv font)); [|intros st' Hst'; apply IH; exact Hst'].
    unfold process_glyph. apply (returns_in_bind (fun _ => True)); [apply returns_in_True|].
    intros _ _. apply returns_in_perforate_glyph; assumption.
Qed.

(** The progress values reported by the loop from index [i] on. *)
Lemma glyph_loop_progress canvas total i names st h st' h' :
  progress_callback cfg = true ->
  glyph_loop sobol_base2 shuffle potrace_trace render_glyph cfg font canvas total i names st h = (inr st', h') ->
  exists vals, mapE (fun j => progress_pct (Z.of_nat j) total) (seq i (length names)) = inr vals /\
    progress_log h' = progress_log h ++ vals.
Proof.
  intros Hcb. revert i st h. induction names as [|n names IH]; intros i st h H.
  - simpl in H. inversion H; subst. exists []. split; [reflexivity|]. rewrite app_nil_r. reflexivity.
  - cbn [glyph_loop] in H. unfold bind at 1 in H.
    destruct (process_glyph sobol_base2 shuffle potrace_trace render_glyph cfg font canvas total i n st h) as [[e|st1] h1] eqn:Ep; [discriminate|].
    unfold process_glyph, report_progress, bind in Ep. rewrite Hcb in Ep.
    unfold lift in Ep.
    destruct (progress_pct (Z.of_nat i) total) as [e|v] eqn:Ev; [discriminate|].
    destruct (only_images_perforate_glyph canvas n st
                (mkHeap (images h) (progress_log h ++ [v]) (saved_file h))) as [l Hl].
    unfold emit in Ep. simpl in Ep. rewrite Ep in Hl. simpl in Hl. subst h1.
    destruct (IH (S i) st1 _ H) as (vals & Hm & Hlog).
    exists (v :: vals). split.
    + simpl. rewrite Ev. simpl in Hm. rewrite Hm. reflexivity.
    + rewrite Hlog. simpl. rewrite <- app_assoc. reflexivity.
Qed.

End PipelineFacts.

(** C4 (amended). When [glyf] has a [space] glyph, the post-pass gives its
    outline to exactly the glyphs of the order never marked modified. No
    blank glyph is synthesized: for a font with no [space] glyph (and
    [space] not in the glyph order) whose order lists [.notdef],
    [perforate_font] fails and saves no file: either the glyph loop raises
    (the run fails with its exception), or the loop completes and the
    post-pass raises [KeyError] (on [font["glyf"]["space"]]), which the run
    propagates. *)
Theorem C4_space_substitute_required sobol_base2 shuffle potrace_trace render_glyph
    compile_font cfg font h order modified g :
  (forall sp, g !! "space" = Some sp ->
     exists g', post_pass order modified g = inr g' /\
       forall n, g' !! n =
         if bool_decide (n ∈ order /\ n ∉ modified) then Some sp else g !! n) /\
  (glyf font !! "space" = None -> "space" ∉ glyph_order font ->
   ".notdef" ∈ glyph_order font ->
   let glyphs := if test cfg then firstn 20 (glyph_order font) else glyph_order font in
   let loop := glyph_loop sobol_base2 shuffle potrace_trace render_glyph cfg font
                 (length (images h)) (Z.of_nat (length glyphs)) 0 glyphs (glyf font, ∅)
                 (set_images h (images h ++ [white_canvas])) in
   let run := perforate_font sobol_base2 shuffle potrace_trace render_glyph compile_font
                cfg font h in
   ((exists e, fst loop = inl e /\ fst run = inl e) \/
    (exists st, fst loop = inr st /\
       post_pass (glyph_order font) (snd st) (fst st) = inl KeyError /\
       fst run = inl KeyError)) /\
   saved_file (snd run) = saved_file h).
Proof.
  split; [apply post_pass_space|].
  intros Hg Hsp Hnd glyphs loop run. subst loop run.
  unfold perforate_font, bind, alloc_image. fold glyphs.
  set (h1 := set_images h _).
  pose proof (keeps_saved_glyph_loop sobol_base2 shuffle potrace_trace render_glyph cfg font
                (length (images h)) (Z.of_nat (length glyphs)) 0 glyphs (glyf font, ∅) h1) as Hks.
  pose proof (returns_in_glyph_loop sobol_base2 shuffle potrace_trace render_glyph cfg font
                (length (images h)) (Z.of_nat (length glyphs)) 0 glyphs (glyf font, ∅) Hsp) as Hri.
  destruct (glyph_loop _ _ _ _ _ _ _ _ _ _ _ h1) as [[e|[g1 m1]] h2] eqn:El.
  - simpl in *. split; [left; eauto | exact Hks].
  - destruct (Hri (conj (not_elem_of_empty _) eq_refl) _ _ _ El) as [Hm Hs].
    simpl in Hm, Hs, Hks. rewrite Hg in Hs.
    pose proof (post_pass_no_space _ _ _ _ Hs Hnd Hm) as Hpp.
    unfold lift. rewrite Hpp. simpl.
    split; [right; exists (g1, m1); simpl; auto | exact Hks].
Qed.

Lemma C4_space_substitute_required_witness :
  (exists g', post_pass (glyph_order font_with_space) ∅ (glyf font_with_space) = inr g' /\
     g' !! ".notdef" = Some empty_glyph /\ g' !! "A" = Some empty_glyph) /\
  (((exists e, fst (glyph_loop sobol_origin id trace_one render_dot
                      (default_config "blue_noise" 20%float) font_without_space
                      0 2 0 [".notdef"; "A"] (glyf font_without_space, ∅)
                      (set_images empty_heap [white_canvas])) = inl e /\
                 fst (run_pipeline (default_config "blue_noise" 20%float) font_without_space) = inl e) \/
    (exists st, fst (glyph_loop sobol_origin id trace_one render_dot
                      (default_config "blue_noise" 20%float) font_without_space
                      0 2 0 [".notdef"; "A"] (glyf font_without_space, ∅)
                      (set_images empty_heap [white_canvas])) = inr st /\
       post_pass (glyph_order font_without_space) (snd st) (fst st) = inl KeyError /\
       fst (run_pipeline (default_config "blue_noise" 20%float) font_without_space) = inl KeyError)) /\
   saved_file (snd (run_pipeline (default_config "blue_noise" 20%float) font_without_space)) = None).
Proof.
  destruct (C4_space_substitute_required sobol_origin id trace_one render_dot compile_ok
              (default_config "blue_noise" 20%float) font_without_space empty_heap
              (glyph_order font_with_space) ∅ (glyf font_with_space)) as [H1 H2].
  split.
  { destruct (H1 empty_glyph eq_refl) as (g' & Hp & Hl). exists g'.
    split; [exact Hp|]. rewrite !Hl. vm_compute. split; reflexivity. }
  apply H2.
  - reflexivity.
  - vm_compute. intros Hin. apply elem_of_cons in Hin as [Hin|Hin]; [discriminate|].
    apply elem_of_cons in Hin as [Hin|Hin]; [discriminate|]. inversion Hin.
  - apply elem_of_cons. left. reflexivity.
Defined.

(** C5 (amended). With a progress callback, a completed run reports exactly
    the values [int((i / total) * 100)] (floating-point) for
    [i = 0 .. total - 1], one at the start of each iteration, where [total]
    is the number of glyphs processed; nothing else is reported, in
    particular no final 100. *)
Theorem C5_progress_values sobol_base2 shuffle potrace_trace render_glyph compile_font
    cfg font h :
  progress_callback cfg = true ->
  fst (perforate_font sobol_base2 shuffle potrace_trace render_glyph compile_font cfg font h) = inr tt ->
  let glyphs := if test cfg then firstn 20 (glyph_order font) else glyph_order font in
  exists vals,
    mapE (fun i => progress_pct (Z.of_nat i) (Z.of_nat (length glyphs)))
         (seq 0 (length glyphs)) = inr vals /\
    progress_log (snd (perforate_font sobol_base2 shuffle potrace_trace render_glyph compile_font
                         cfg font h)) = progress_log h ++ vals.
Proof.
  intros Hcb Hok glyphs. revert Hok. unfold perforate_font, bind, alloc_image.
  fold glyphs. set (h1 := set_images h _).
  destruct (glyph_loop _ _ _ _ _ _ _ _ _ _ _ h1) as [[e|[g1 m1]] h2] eqn:El;
    [discriminate|].
  destruct (glyph_loop_progress _ _ _ _ _ _ _ _ _ _ _ _ _ _ Hcb El) as (vals & Hm & Hlog).
  unfold lift. destruct (post_pass _ _ _) as [e|g']; [discriminate|].
  destruct (compile_font _ _) as [e|]; [discriminate|].
  intros _. exists vals. split; [exact Hm|]. simpl. exact Hlog.
Qed.

Lemma C5_progress_values_witness :
  exists vals,
    mapE (fun i => progress_pct (Z.of_nat i) 3) (seq 0 3) = inr vals /\
    progress_log (snd (run_pipeline (default_config "blue_noise" 20%float) font_with_space))
      = [] ++ vals.
Proof.
  exact (C5_progress_values sobol_origin id trace_one render_dot compile_ok
           (default_config "blue_noise" 20%float) font_with_space empty_heap
           eq_refl ltac:(vm_compute; reflexivity)).
Defined.

(** ** Size policies on a concrete image *)

Lemma C9_size_policies_place_nothing_witness :
  fst (apply_shape_dithering id 0 "circle" 1 (SizeStr "biggest") f100
         (mkHeap [one_dot_image] [] None)) = inl Warning /\
  apply_shape_dithering id 0 "circle" 1 (SizeStr "random") 20%float
    (mkHeap [one_dot_image] [] None)
    = (inr 1%nat, set_images (mkHeap [one_dot_image] [] None)
                    ([one_dot_image] ++ [one_dot_image])).
Proof.
  split.
  - destruct (C9_size_policies_place_nothing id 0 "circle" 1 "biggest" f100
                (mkHeap [one_dot_image] [] None) (or_intror eq_refl)) as [_ H2].
    destruct (H2 one_dot_image 1 eq_refl (or_introl eq_refl)
                (fun l => Permutation_refl l) ltac:(vm_compute; reflexivity))
      as (_ & Hw & _).
    apply Hw. vm_compute. discriminate.
  - destruct (C9_size_policies_place_nothing id 0 "circle" 1 "random" 20%float
                (mkHeap [one_dot_image] [] None) (or_introl eq_refl)) as [_ H2].
    destruct (H2 one_dot_image 0 eq_refl (or_introl eq_refl)
                (fun l => Permutation_refl l) ltac:(vm_compute; reflexivity))
      as (_ & _ & Hc).
    apply Hc. reflexivity.
Defined.

(** ** Further properties of the code *)

Lemma for_each_ext {A} (l : list A) (f g : A -> M unit) h :
  (forall a h', f a h' = g a h') -> for_each l f h = for_each l g h.
Proof.
  intros Hfg. revert h. induction l as [|a l IH]; intros h; [reflexivity|].
  cbn [for_each]. unfold bind. rewrite Hfg.
  destruct (g a h) as [[e|[]] h1]; [reflexivity | apply IH].
Qed.

Lemma whitens_ret id w hh : whitens id w hh (ret tt) (fun _ _ => false).
Proof.
  intros h im Him Hw Hh. exists im. split.
  - unfold ret. f_equal. rewrite list_insert_id by exact Him. destruct h; reflexivity.
  - repeat split; auto.
Qed.

Lemma whitens_put_pixel id w hh x y :
  in_bounds w hh x y = true ->
  whitens id w hh (put_pixel id x y 255) (fun a b => (a =? x) && (b =? y)).
Proof.
  unfold in_bounds. intros Hb h im Him Hw Hh. unfold put_pixel, bind, get_image. rewrite Him.
  assert (E : px_index im x y = Some (x, y)).
  { unfold px_index. repeat rewrite andb_true_iff in Hb.
    replace (x <? 0) with false by lia. replace (y <? 0) with false by lia.
    replace ((0 <=? x) && (x <? im_w im) && (0 <=? y) && (y <? im_h im)) with true by
      (symmetry; repeat rewrite andb_true_iff; lia). reflexivity. }
  rewrite E. exists (upd_px im x y 255). split; [reflexivity|].
  unfold whitened, upd_px; simpl. repeat split.
Qed.

Lemma whitens_if id w hh (c : bool) m S :
  (c = true -> whitens id w hh m S) ->
  whitens id w hh (if c then m else ret tt) (fun a b => c && S a b).
Proof. destruct c; intros H; [apply H; reflexivity | apply whitens_ret]. Qed.

Lemma whitens_bind id w hh (m1 m2 : M unit) S1 S2 :
  whitens id w hh m1 S1 -> whitens id w hh m2 S2 ->
  whitens id w hh (m1 ;; m2) (fun a b => S1 a b || S2 a b).
Proof.
  intros H1 H2 h im Him Hw Hh. unfold bind.
  destruct (H1 h im Him Hw Hh) as (im1 & E1 & Hw1 & Hh1 & Hp1). rewrite E1.
  assert (Hlt : (id < length (images h))%nat) by (eapply lookup_lt_Some; exact Him).
  assert (Him1 : images (set_images h (<[id:=im1]> (images h))) !! id = Some im1)
    by (simpl; apply list_lookup_insert_eq; exact Hlt).
  destruct (H2 _ _ Him1 ltac:(congruence) ltac:(congruence)) as (im2 & E2 & Hw2 & Hh2 & Hp2).
  rewrite E2. exists im2. split.
  - simpl. rewrite list_insert_insert_eq. reflexivity.
  - split; [congruence|]. split; [congruence|]. intros a b.
    rewrite Hp2, Hp1. destruct (S1 a b), (S2 a b); reflexivity.
Qed.

Lemma whitens_for_each {A} id w hh (l : list A) f S :
  (forall a, whitens id w hh (f a) (S a)) ->
  whitens id w hh (for_each l f) (fun x y => existsb (fun a => S a x y) l).
Proof.
  intros Hf. induction l as [|a l IH]; simpl.
  - apply whitens_ret.
  - apply (whitens_bind _ _ _ _ _ _ _ (Hf a) IH).
Qed.

Lemma whitens_ext id w hh m S1 S2 :
  (forall a b, S1 a b = S2 a b) -> whitens id w hh m S1 -> whitens id w hh m S2.
Proof.
  intros Heq Hm h im Him Hw Hh. destruct (Hm h im Him Hw Hh) as (im' & E & Hw' & Hh' & Hp).
  exists im'. split; [exact E|]. split; [exact Hw'|]. split; [exact Hh'|].
  intros a b. rewrite Hp, Heq. reflexivity.
Qed.

Lemma blue_noise_loop_whitens id w hh half pts :
  whitens id w hh
    (for_each pts (fun '(point_x, point_y) =>
       for_each (zrange (- half) (half + 1)) (fun dx =>
         for_each (zrange (- half) (half + 1)) (fun dy =>
           let x := point_x + dx in
           let y := point_y + dy in
           if (0 <=? x) && (x <? w) && (0 <=? y) && (y <? hh)
           then put_pixel id x y 255 else ret tt))))
    (blue_noise_set w hh half pts).
Proof.
  unfold blue_noise_set. apply whitens_for_each. intros [px py].
  apply whitens_for_each. intros dx. apply whitens_for_each. intros dy.
  cbv zeta. eapply whitens_ext;
    [|apply whitens_if; intros Hc; apply whitens_put_pixel; exact Hc].
  intros a b. unfold in_bounds. rewrite andb_assoc. reflexivity.
Qed.

Lemma zrange_In_iff a b k : In k (zrange a b) <-> a <= k < b.
Proof.
  split; [apply zrange_In|]. intros Hk. unfold zrange. apply in_map_iff.
  exists (Z.to_nat (k - a)). split; [lia|]. apply in_seq. lia.
Qed.

Lemma blue_noise_set_spec w hh half pts a b :
  blue_noise_set w hh half pts a b = true <->
  blue_noise_covered w hh half pts a b.
Proof.
  unfold blue_noise_set, blue_noise_covered. rewrite existsb_exists. split.
  - intros ([px py] & Hin & H). apply existsb_exists in H as (dx & Hdx & H).
    apply existsb_exists in H as (dy & Hdy & H).
    apply zrange_In in Hdx, Hdy. unfold in_bounds in H.
    repeat rewrite andb_true_iff in H. rewrite !Z.leb_le, !Z.ltb_lt, !Z.eqb_eq in H.
    exists px, py, dx, dy. repeat split; try tauto; lia.
  - intros (px & py & dx & dy & Hin & H). exists (px, py). split; [exact Hin|].
    apply existsb_exists. exists dx. split; [apply zrange_In_iff; lia|].
    apply existsb_exists. exists dy. split; [apply zrange_In_iff; lia|].
    unfold in_bounds. repeat rewrite andb_true_iff. rewrite !Z.leb_le, !Z.ltb_lt, !Z.eqb_eq. lia.
Qed.

(** X1. dithering.py [apply_blue_noise_dithering(image, sobol_points,
    point_size)] on an existing image never raises and edits that image in
    place (the same object is returned): its size is kept, the in-bounds
    pixels of the squares of half-side [point_size // 2] centred on the
    points become white, and every other pixel is left as it was. *)
Theorem X1_blue_noise_whitens_squares id pts point_size h im :
  images h !! id = Some im ->
  exists im',
    apply_blue_noise_dithering id pts point_size h
      = (inr id, set_images h (<[id := im']> (images h))) /\
    im_w im' = im_w im /\ im_h im' = im_h im /\
    forall a b,
      (blue_noise_covered (im_w im) (im_h im) (point_size / 2) pts a b ->
         im_px im' a b = 255) /\
      (~ blue_noise_covered (im_w im) (im_h im) (point_size / 2) pts a b ->
         im_px im' a b = im_px im a b).
Proof.
  intros Him.
  destruct (blue_noise_loop_whitens id (im_w im) (im_h im) (point_size / 2) pts h im Him
              eq_refl eq_refl) as (im' & E & Hw & Hh & Hp).
  exists im'. unfold apply_blue_noise_dithering, bind, get_image. rewrite Him.
  cbv zeta in E |- *. rewrite E. split; [reflexivity|]. split; [exact Hw|]. split; [exact Hh|].
  intros a b. rewrite Hp. rewrite <- blue_noise_set_spec.
  destruct (blue_noise_set _ _ _ _ a b); split; intros H; try reflexivity; try discriminate; exfalso; tauto.
Qed.

Lemma X1_blue_noise_whitens_squares_witness :
  images (mkHeap [black_square] [] None) !! 0%nat = Some black_square /\
  exists im',
    apply_blue_noise_dithering 0 [(0, 0)] 3 (mkHeap [black_square] [] None)
      = (inr 0%nat, set_images (mkHeap [black_square] [] None)
                      (<[0%nat := im']> (images (mkHeap [black_square] [] None)))) /\
    im_w im' = im_w black_square /\ im_h im' = im_h black_square /\
    forall a b,
      (blue_noise_covered (im_w black_square) (im_h black_square) (3 / 2) [(0, 0)] a b ->
         im_px im' a b = 255) /\
      (~ blue_noise_covered (im_w black_square) (im_h black_square) (3 / 2) [(0, 0)] a b ->
         im_px im' a b = im_px black_square a b).
Proof.
  split; [reflexivity|]. apply X1_blue_noise_whitens_squares. reflexivity.
Defined.

(** X2. The [apply_blue_noise_dithering(image, sobol_points)] of glyphs.py,
    which whitens one pixel per in-bounds point, behaves exactly as the
    dithering.py function of the same name with [point_size] 0 or 1, on every
    heap, in result, in the image it edits and in every other effect. *)
Theorem X2_glyphs_blue_noise_is_point_size_one id pts point_size h :
  0 <= point_size <= 1 ->
  apply_blue_noise_dithering_glyphs id pts h = apply_blue_noise_dithering id pts point_size h.
Proof.
  intros Hps. assert (Hhalf : point_size / 2 = 0) by (apply Z.div_small; lia).
  unfold apply_blue_noise_dithering_glyphs, apply_blue_noise_dithering.
  cbv zeta. rewrite Hhalf. unfold bind at 1 3. unfold get_image.
  destruct (images h !! id) as [im|]; [|reflexivity].
  unfold bind. erewrite for_each_ext; [reflexivity|].
  intros [px py] h'. change (zrange (- 0) (0 + 1)) with [0]. cbn [for_each].
  rewrite !Z.add_0_r. unfold bind.
  destruct ((0 <=? px) && (px <? im_w im) && (0 <=? py) && (py <? im_h im)).
  - destruct (put_pixel id px py 255 h') as [[e|[]] h1]; reflexivity.
  - reflexivity.
Qed.

Lemma X2_glyphs_blue_noise_is_point_size_one_witness :
  (0 <= 1 <= 1) /\
  apply_blue_noise_dithering_glyphs 0 [(1, 1)] (mkHeap [black_square] [] None) =
  apply_blue_noise_dithering 0 [(1, 1)] 1 (mkHeap [black_square] [] None).
Proof. split; [lia | apply X2_glyphs_blue_noise_is_point_size_one; lia]. Defined.

(** X3. When dithering.py [apply_shape_dithering] returns, its result is a
    fresh image (a copy appended to the heap), of the size of the input, and
    each of its pixels is the input's pixel or white: shape dithering only
    removes ink. *)
Theorem X3_shape_dithering_only_whitens shuffle id shape_type margin shape_size
    reduction_percentage h r im0 :
  images h !! id = Some im0 ->
  fst (apply_shape_dithering shuffle id shape_type margin shape_size
         reduction_percentage h) = inr r ->
  r = length (images h) /\
  exists im1,
    images (snd (apply_shape_dithering shuffle id shape_type margin shape_size
                   reduction_percentage h)) !! r = Some im1 /\
    im_w im1 = im_w im0 /\ im_h im1 = im_h im0 /\
    forall a b, im_px im1 a b = im_px im0 a b \/ im_px im1 a b = 255.
Proof.
  intros Him Hr.
  destruct (shape_dithering_body shuffle id shape_type margin shape_size
              reduction_percentage h) as [[e|[r' placed]] h2] eqn:Eb.
  { unfold apply_shape_dithering, bind in Hr. rewrite Eb in Hr. discriminate. }
  assert (Happ : apply_shape_dithering shuffle id shape_type margin shape_size
                   reduction_percentage h = (inr r', h2))
    by (unfold apply_shape_dithering, bind; rewrite Eb; reflexivity).
  rewrite Happ in Hr |- *. simpl in Hr |- *. inversion Hr; subst r'. clear Hr Happ.
  unfold shape_dithering_body, bind, get_image, alloc_image, lift, ret, raise in Eb.
  destruct (String.eqb shape_type "circle" || String.eqb shape_type "rectangle");
    [|discriminate].
  destruct (valid_shape_size shape_size); [|discriminate].
  change (negb true) with false in Eb. cbv beta iota zeta in Eb.
  rewrite Him in Eb.
  set (h1 := set_images h (images h ++ [im0])) in *.
  destruct (num_shapes_of _ _) as [e|n]; [discriminate|].
  set (cands := py_slice_upto _ n) in *.
  destruct (shape_loop _ _ _ _ _ cands shape_size [] h1) as [[e|pl] h3] eqn:El;
    [discriminate|].
  inversion Eb; subst r pl h3. clear Eb. split; [reflexivity|].
  assert (Hl : images h1 !! length (images h) = Some im0).
  { simpl. rewrite lookup_app_r by lia. rewrite Nat.sub_diag. reflexivity. }
  destruct (shape_loop_lighter _ _ _ _ _ _ _ _ _ _ _ im0 im0 Hl (lighter_refl im0) El)
    as (im1 & Him1 & Hw & Hh & Hp).
  exists im1. auto.
Qed.

Lemma X3_shape_dithering_only_whitens_witness :
  images (mkHeap [black_square] [] None) !! 0%nat = Some black_square /\
  fst (apply_shape_dithering id 0 "circle" 1 (SizeInt 3) f100
         (mkHeap [black_square] [] None)) = inr 1%nat /\
  (1%nat = length (images (mkHeap [black_square] [] None)) /\
   exists im1,
     images (snd (apply_shape_dithering id 0 "circle" 1 (SizeInt 3) f100
                    (mkHeap [black_square] [] None))) !! 1%nat = Some im1 /\
     im_w im1 = im_w black_square /\ im_h im1 = im_h black_square /\
     forall a b, im_px im1 a b = im_px black_square a b \/ im_px im1 a b = 255).
Proof.
  split; [reflexivity|]. split; [vm_compute; reflexivity|].
  apply X3_shape_dithering_only_whitens; [reflexivity | vm_compute; reflexivity].
Defined.

Lemma lookup_map_seq (f : nat -> Z) s m j :
  (j < m)%nat -> map f (seq s m) !! j = Some (f (s + j)%nat).
Proof.
  revert s j. induction m as [|m IH]; intros s j Hj; [lia|].
  destruct j as [|j]; simpl; [f_equal; f_equal; lia|].
  rewrite IH by lia. f_equal. f_equal. lia.
Qed.

Lemma simplify_levels_eq n :
  2 <= n <= 256 ->
  simplify_levels n =
  map (fun k => 0 + Z.of_nat k * simplify_step n) (seq 0 (Z.to_nat (level_count n))).
Proof.
  intros Hn. unfold simplify_levels, level_count. fold (simplify_step n).
  assert (Hs : 1 <= simplify_step n) by (unfold simplify_step; apply Z.div_le_lower_bound; lia).
  cbv zeta. rewrite np_arange_length. unfold np_arange.
  replace (256 - 0 + simplify_step n - 1) with (256 + simplify_step n - 1) by lia.
  set (K := (256 + simplify_step n - 1) / simplify_step n).
  assert (HK : 0 <= K) by (apply Z.div_pos; lia).
  destruct (Z.of_nat (Z.to_nat K) >? n) eqn:E.
  - apply Z.gtb_lt in E. rewrite firstn_map, take_seq. f_equal. f_equal. lia.
  - rewrite Z.gtb_ltb, Z.ltb_ge in E. f_equal. f_equal. lia.
Qed.

Lemma div_bounds p s : 0 < s -> s * (p / s) <= p < s * (p / s) + s.
Proof. intros Hs. pose proof (Z.div_mod p s) as D. pose proof (Z.mod_pos_bound p s Hs). lia. Qed.

Lemma digitize_levels s m p :
  1 <= s ->
  np_digitize p (map (fun k => 0 + Z.of_nat k * s) (seq 0 m)) =
  if p <? 0 then 0 else Z.min (p / s + 1) (Z.of_nat m).
Proof.
  intros Hs. unfold np_digitize. induction m as [|m IH].
  - simpl. destruct (p <? 0) eqn:E; [reflexivity|]. apply Z.ltb_ge in E.
    assert (0 <= p / s) by (apply Z.div_pos; lia). lia.
  - rewrite seq_S, map_app, List.filter_app, length_app, Nat2Z.inj_add, IH. simpl.
    pose proof (div_bounds p s ltac:(lia)) as Hd.
    destruct (p <? 0) eqn:E.
    + apply Z.ltb_lt in E. replace (0 + Z.of_nat m * s <=? p) with false; [reflexivity|].
      symmetry. apply Z.leb_gt. nia.
    + apply Z.ltb_ge in E. destruct (0 + Z.of_nat m * s <=? p) eqn:F.
      * apply Z.leb_le in F. assert (Z.of_nat m <= p / s) by nia. simpl. lia.
      * apply Z.leb_gt in F. assert (p / s < Z.of_nat m) by nia. simpl. lia.
Qed.

Lemma mapE_map {A B} (f : A -> exn + B) (g : A -> B) l :
  (forall a, f a = inr (g a)) -> mapE f l = inr (map g l).
Proof. intros H. induction l as [|a l IH]; simpl; [reflexivity|]. rewrite H, IH. reflexivity. Qed.

Lemma simplify_image_eq_map img num_levels :
  2 <= num_levels <= 256 ->
  simplify_image img num_levels = inr (map (map (simplified_value num_levels)) img).
Proof.
  intros Hn. unfold simplify_image.
  replace (negb ((2 <=? num_levels) && (num_levels <=? 256))) with false by lia.
  cbv zeta. rewrite simplify_levels_eq by exact Hn.
  apply mapE_map. intros row. apply mapE_map. intros p.
  unfold simplified_value.
  assert (Hs : 1 <= simplify_step num_levels)
    by (unfold simplify_step; apply Z.div_le_lower_bound; lia).
  set (s := simplify_step num_levels) in *.
  assert (HL : 1 <= level_count num_levels <= num_levels).
  { unfold level_count. fold s.
    assert (1 <= (256 + s - 1) / s) by (apply Z.div_le_lower_bound; lia). lia. }
  assert (HLs : s * (level_count num_levels - 1) <= 255).
  { unfold level_count. fold s.
    replace (256 + s - 1) with (255 + 1 * s) by lia. rewrite Z.div_add by lia.
    pose proof (div_bounds 255 s ltac:(lia)). nia. }
  set (L := level_count num_levels) in *.
  rewrite digitize_levels by exact Hs.
  assert (Hlook : forall j, 0 <= j < L ->
            py_index (map (fun k => 0 + Z.of_nat k * s) (seq 0 (Z.to_nat L))) j
            = inr (s * j)).
  { intros j Hj. unfold py_index. replace (j <? 0) with false by lia.
    replace (j <? 0) with false by lia.
    rewrite lookup_map_seq by lia. f_equal. lia. }
  destruct (p <? 0) eqn:E.
  - unfold py_index. rewrite length_map, length_seq.
    replace (0 - 1 <? 0) with true by lia.
    rewrite Z2Nat.id by lia.
    replace (0 - 1 + L <? 0) with false by lia.
    rewrite lookup_map_seq by lia. f_equal.
    rewrite Nat.add_0_l, Z2Nat.id by lia.
    rewrite Z.mod_small by nia. lia.
  - apply Z.ltb_ge in E.
    assert (0 <= p / s) by (apply Z.div_pos; lia).
    rewrite Hlook by lia. f_equal.
    rewrite Z.mod_small by nia. lia.
Qed.

(** X4. For [2 <= num_levels <= 256], dithering.py [simplify_image] maps each
    pixel [p] independently: with [step = 256 // (num_levels - 1)] and [L]
    the number of levels kept ([min num_levels (ceil (256 / step))]), [p]
    becomes [step * min (p // step) (L - 1)] (a negative [p] becomes the top
    level [step * (L - 1)], as [levels[-1]] does in numpy). *)
Theorem X4_simplify_image_closed_form img num_levels :
  2 <= num_levels <= 256 ->
  simplify_image img num_levels = inr (map (map (simplified_value num_levels)) img).
Proof. apply simplify_image_eq_map. Qed.

Lemma X4_simplify_image_closed_form_witness :
  (2 <= 4 <= 256) /\ simplify_image [[0; 84; 85; 200; 255]] 4
    = inr (map (map (simplified_value 4)) [[0; 84; 85; 200; 255]]).
Proof. split; [lia | apply X4_simplify_image_closed_form; lia]. Defined.

(** ** The coordinate transform in every render mode *)

(** C2 (amended). In normal mode ([with_bug = false]), with [s] the final
    scale factor ([units_per_em] divided by the canvas height for "AUTO"),
    the point [k] of the traced outline [(x, y)] becomes
    [(int(x * s), int(y * -s + ascender))]: Python's [int], truncation
    toward zero, not rounding. This holds in every render mode; in
    "simplified" mode the simplification runs first and succeeds for
    [2 <= num_levels <= 256] (otherwise it raises [ValueError] before any
    point is written). *)
Theorem C2_normal_mode_truncates potrace_trace im scale_factor units_per_em ascender
    glyf render_mode num_levels coords s cs k x y :
  potrace_trace render_mode num_levels im = Some coords ->
  (String.eqb render_mode "simplified" = true -> 2 <= num_levels <= 256) ->
  final_scale_factor scale_factor units_per_em im = inr s ->
  mapE (scale_point s ascender) coords = inr cs ->
  coords !! k = Some (x, y) ->
  image_to_glyph potrace_trace im scale_factor units_per_em ascender glyf false
    render_mode num_levels = inr (mkGlyph cs) /\
  exists a b,
    py_int (PrimFloat.mul x s) = inr a /\
    py_int (PrimFloat.add (PrimFloat.mul y (PrimFloat.opp s)) (float_of_Z ascender)) = inr b /\
    cs !! k = Some (float_of_Z a, float_of_Z b).
Proof.
  intros Htr Hrm Hs Hcs Hk. split.
  - unfold image_to_glyph.
    destruct (String.eqb render_mode "simplified") eqn:Em.
    + rewrite simplify_image_eq_map by (apply Hrm; reflexivity).
      rewrite Htr, Hs. unfold scale_coordinates. cbn [negb]. rewrite Hcs. reflexivity.
    + rewrite Htr, Hs. unfold scale_coordinates. cbn [negb]. rewrite Hcs. reflexivity.
  - destruct (mapE_lookup _ _ _ _ _ Hcs Hk) as ([fx fy] & Hp & Hck).
    unfold scale_point in Hp.
    destruct (py_int (PrimFloat.mul x s)) as [e|a]; [discriminate|].
    destruct (py_int (PrimFloat.add _ _)) as [e|b]; [discriminate|].
    inversion Hp; subst. exists a, b. repeat split; exact Hck.
Qed.

Lemma C2_normal_mode_truncates_witness :
  image_to_glyph trace_one white_canvas SFAuto 1000 800 ∅ false "simplified" 4
    = inr (mkGlyph [(1%float, 800%float)]) /\
  exists a b,
    py_int (PrimFloat.mul 1%float (PrimFloat.div 1000%float 512%float)) = inr a /\
    py_int (PrimFloat.add (PrimFloat.mul 0%float
              (PrimFloat.opp (PrimFloat.div 1000%float 512%float))) (float_of_Z 800)) = inr b /\
    [(1%float, 800%float)] !! 0%nat = Some (float_of_Z a, float_of_Z b).
Proof.
  apply (C2_normal_mode_truncates trace_one white_canvas SFAuto 1000 800 ∅ "simplified" 4
           [(1%float, 0%float)] (PrimFloat.div 1000%float 512%float)).
  - reflexivity.
  - intros _. lia.
  - vm_compute. reflexivity.
  - vm_compute. reflexivity.
  - reflexivity.
Defined.

(** X5. With [num_levels = 2] (the default of [perforate_font]), dithering.py
    [simplify_image] turns every pixel black: the step is 256, so the only
    level is 0 and every pixel maps to it. *)
Theorem X5_two_levels_all_black img :
  simplify_image img 2 = inr (map (map (fun _ => 0)) img).
Proof.
  rewrite simplify_image_eq_map by lia. f_equal.
  apply map_ext. intros row. apply map_ext. intros p.
  unfold simplified_value. cbv zeta. vm_compute (level_count 2). vm_compute (simplify_step 2).
  destruct (p <? 0) eqn:E; [reflexivity|]. apply Z.ltb_ge in E.
  rewrite Z.min_r by (apply Z.div_pos; lia). lia.
Qed.

Lemma bug_step_eq s n cs i :
  bug_step s n (inr cs) i =
  match cs !! (if Nat.eqb i 0 then 0%nat else (n - i)%nat) with
  | None => inl IndexError
  | Some p => match bug_point s p with
              | inl e => inl e
              | inr q => inr (<[i := q]> cs)
              end
  end.
Proof.
  unfold bug_step. destruct (cs !! _) as [[a b]|]; [|reflexivity]. simpl.
  destruct (py_int (PrimFloat.mul b s)), (py_int (PrimFloat.mul a s)); reflexivity.
Qed.

Lemma fold_bug_step_inl s n l e : fold_left (bug_step s n) l (inl e) = inl e.
Proof. induction l as [|i l IH]; simpl; [reflexivity | exact IH]. Qed.

Lemma bug_inv_step s coords k cs cs' :
  (k < length coords)%nat -> bug_inv s coords k cs ->
  bug_step s (length coords) (inr cs) k = inr cs' -> bug_inv s coords (S k) cs'.
Proof.
  set (n := length coords). intros Hk [Hlen Hinv] H. rewrite bug_step_eq in H.
  set (j := if Nat.eqb k 0 then 0%nat else (n - k)%nat) in H.
  assert (Hj : (j < n)%nat) by (unfold j; destruct (Nat.eqb_spec k 0); lia).
  destruct (Hinv j Hj) as (vj & Evj & Hge & Hlt). rewrite Evj in H.
  destruct (bug_point s vj) as [e|q] eqn:Eq; [discriminate|]. inversion H; subst cs'. clear H.
  assert (Hfin : bug_final s coords n k q).
  { split; intros H2.
    - exists vj. split; [|exact Eq]. rewrite <- Hge.
      + f_equal. unfold j. destruct (Nat.eqb_spec k 0).
        * subst k. rewrite Nat.sub_0_r, Nat.Div0.mod_same. reflexivity.
        * apply Nat.mod_small. lia.
      + unfold j. destruct (Nat.eqb_spec k 0); lia.
    - assert (Hk0 : k <> 0%nat) by lia.
      assert (Ej : j = (n - k)%nat) by (unfold j; destruct (Nat.eqb_spec k 0); lia).
      destruct (Hlt ltac:(lia)) as [Hf _].
      destruct (Hf ltac:(lia)) as (c & Ec & Ebc). exists c, vj. split; [|split; [exact Ebc | exact Eq]].
      rewrite <- Ec. f_equal. rewrite Nat.mod_small by lia. lia. }
  split; [rewrite length_insert; exact Hlen|].
  intros i Hi. destruct (Nat.eq_dec i k) as [->|Hne].
  - exists q. split; [apply list_lookup_insert_eq; lia|]. split; [lia|]. intros _. exact Hfin.
  - destruct (Hinv i Hi) as (v & Ev & H1 & H2). exists v.
    split; [rewrite list_lookup_insert_ne by congruence; exact Ev|].
    split; intros Hik; [apply H1; lia | apply H2; lia].
Qed.

Lemma bug_loop_inv s coords k cs :
  (k <= length coords)%nat ->
  fold_left (bug_step s (length coords)) (seq 0 k) (inr coords) = inr cs ->
  bug_inv s coords k cs.
Proof.
  revert cs. induction k as [|k IH]; intros cs Hk H.
  - simpl in H. injection H as <-. split; [reflexivity|].
    intros i Hi. destruct (lookup_lt_is_Some_2 coords i Hi) as [v Ev].
    exists v. split; [exact Ev|]. split; [intros _; exact Ev | lia].
  - rewrite seq_S, fold_left_app in H. simpl in H.
    destruct (fold_left (bug_step s (length coords)) (seq 0 k) (inr coords)) as [e|cs0] eqn:E.
    + simpl in H. discriminate.
    + eapply bug_inv_step; [lia | apply IH; [lia | reflexivity] | exact H].
Qed.

(** X6. With [with_bug = True], the scaling loop of glyphs.py
    [image_to_glyph] reads [glyph.coordinates[-i]] while it overwrites the
    list in place: when it succeeds, the list keeps its length, an index [i]
    with [2 i <= n] gets the swapped-and-scaled image of the original point
    [n - i] (mod [n]), and an index with [2 i > n] gets the original point
    [i] transformed twice. *)
Theorem X6_with_bug_coordinates s ascender coords cs :
  scale_coordinates s ascender true coords = inr cs ->
  length cs = length coords /\
  forall i, (i < length coords)%nat -> exists v, cs !! i = Some v /\
    ((2 * i <= length coords)%nat ->
       exists c, coords !! ((length coords - i) mod length coords)%nat = Some c /\
                 bug_point s c = inr v) /\
    ((2 * i > length coords)%nat ->
       exists c w, coords !! i = Some c /\ bug_point s c = inr w /\ bug_point s w = inr v).
Proof.
  unfold scale_coordinates. simpl negb. cbv iota. intros H.
  destruct (bug_loop_inv s coords (length coords) cs (le_n _) H) as [Hlen Hinv].
  split; [exact Hlen|]. intros i Hi. destruct (Hinv i Hi) as (v & Ev & _ & Hf).
  exists v. split; [exact Ev|]. exact (Hf Hi).
Qed.

Lemma X6_with_bug_coordinates_witness :
  scale_coordinates 2%float 0 true bug_coords = inr bug_scaled /\
  (length bug_scaled = length bug_coords /\
   forall i, (i < length bug_coords)%nat -> exists v, bug_scaled !! i = Some v /\
     ((2 * i <= length bug_coords)%nat ->
        exists c, bug_coords !! ((length bug_coords - i) mod length bug_coords)%nat = Some c /\
                  bug_point 2%float c = inr v) /\
     ((2 * i > length bug_coords)%nat ->
        exists c w, bug_coords !! i = Some c /\ bug_point 2%float c = inr w /\
                    bug_point 2%float w = inr v)).
Proof.
  split; [vm_compute; reflexivity|].
  apply (X6_with_bug_coordinates 2%float 0). vm_compute. reflexivity.
Defined.




Lemma utf16be_decode_odd bs : Nat.odd (length bs) = true -> utf16be_decode bs = None.
Proof.
  intros H. remember (length bs) as n eqn:En. revert bs En H.
  induction n as [n IH] using lt_wf_ind. intros bs En H.
  destruct bs as [|hi [|lo rest]]; [subst; discriminate | reflexivity |].
  simpl in En. simpl.
  assert (Hr : Nat.odd (length rest) = true).
  { subst n. rewrite Nat.odd_succ, Nat.even_succ in H. exact H. }
  destruct ((0xD800 <=? hi * 256 + lo) && (hi * 256 + lo <=? 0xDBFF)).
  - destruct rest as [|hi2 [|lo2 rest']]; [discriminate | reflexivity |].
    destruct (_ && _); [|reflexivity].
    rewrite (IH (length rest')); [reflexivity | simpl in En; lia | reflexivity |].
    simpl in Hr. rewrite Nat.odd_succ, Nat.even_succ in Hr. exact Hr.
  - destruct (_ && _); [reflexivity|].
    rewrite (IH (length rest)); [reflexivity | lia | reflexivity | exact Hr].
Qed.

(** X8. The name-table loop of fonts.py [perforate_font] keeps the records
    and their IDs, leaves records other than IDs 1 and 4 unchanged, gives
    records 1 and 4 a string ending in [" Eco"], and sets that string to
    ["Font Eco"] when the raw bytes cannot be UTF-16-BE decoded (an odd
    number of bytes). *)
Theorem X8_name_records_renamed names :
  length (rename_records names) = length names /\
  forall i r, names !! i = Some r ->
    exists r', rename_records names !! i = Some r' /\ nameID r' = nameID r /\
      ((nameID r <> 1 /\ nameID r <> 4) -> r' = r) /\
      ((nameID r = 1 \/ nameID r = 4) ->
         (exists s, nr_string r' = NStr (s ++ eco_suffix)) /\
         (forall bs, nr_string r = NBytes bs -> Nat.odd (length bs) = true ->
            nr_string r' = NStr font_eco)).
Proof.
  split; [apply length_map|]. intros i r Hr.
  exists (rename_record r). split; [unfold rename_records; rewrite list_lookup_fmap, Hr; reflexivity|].
  unfold rename_record.
  destruct ((nameID r =? 1) || (nameID r =? 4)) eqn:E.
  - apply orb_true_iff in E. rewrite !Z.eqb_eq in E.
    split; [destruct (nr_string r) as [bs|s]; [destruct (utf16be_decode bs)|]; reflexivity|].
    split; [lia|]. intros _. split.
    + destruct (nr_string r) as [bs|s]; [destruct (utf16be_decode bs)|]; simpl; eauto.
    + intros bs Hbs Hodd. rewrite Hbs, utf16be_decode_odd by exact Hodd. reflexivity.
  - apply orb_false_iff in E. rewrite !Z.eqb_neq in E.
    split; [reflexivity|]. split; [intros _; reflexivity | lia].
Qed.

(** X9. app/main.py: the options built by [get_options] contain the key
    [line_type], which is not a parameter of [perforate_font], so
    [FontProcessingThread.run] never processes a font: its only signal is
    [error], with the unexpected-keyword [TypeError] for [line_type]. *)
Theorem X9_gui_run_always_type_error {A} (options : list (string * A)) call :
  map fst options = get_options_keys ->
  font_processing_run options call = [SigError_call (UnexpectedKeyword "line_type")].
Proof.
  intros Hk. unfold font_processing_run. rewrite Hk. vm_compute. reflexivity.
Qed.

Lemma X9_gui_run_always_type_error_witness :
  map fst (map (fun k => (k, 0)) get_options_keys) = get_options_keys /\
  font_processing_run (map (fun k => (k, 0)) get_options_keys) (fun _ => (inr tt, [0; 50]))
    = [SigError_call (UnexpectedKeyword "line_type")].
Proof.
  split; [vm_compute; reflexivity|].
  apply X9_gui_run_always_type_error. vm_compute. reflexivity.
Defined.


Lemma sf_le_inf x : sf_isnan x = false -> SFleb x sf_inf = true.
Proof. destruct x as [[]|[]| |[] m e]; cbv; congruence. Qed.

Lemma sf_inf_le x : sf_isnan x = false -> sf_is_pinf x = false -> SFleb sf_inf x = false.
Proof. destruct x as [[]|[]| |[] m e]; cbv; congruence. Qed.

Lemma sf_is_pinf_eq x : sf_is_pinf x = true <-> x = sf_inf.
Proof. destruct x as [[]|[]| |[] m e]; cbv; split; congruence. Qed.

Lemma argmin_go_ok full l i mi mp :
  drop i full = l -> full !! mi = Some mp -> sf_isnan mp = false ->
  (sf_is_pinf mp = false \/ exists x, In x l /\ sf_isinf x = false) ->
  exists v, full !! argmin_go l i mi mp = Some v /\ sf_is_pinf v = false.
Proof.
  revert i mi mp. induction l as [|x l IH]; intros i mi mp Hd Hmi Hnan Hex.
  - simpl. destruct Hex as [Hp|(x & [] & _)]. eauto.
  - assert (Hx : full !! i = Some x).
    { pose proof (lookup_drop full i 0) as E. rewrite Hd, Nat.add_0_r in E.
      symmetry. exact E. }
    assert (Hd' : drop (S i) full = l).
    { replace (S i) with (i + 1)%nat by lia. rewrite <- drop_drop, Hd. reflexivity. }
    simpl. destruct (SFleb mp x) eqn:Ele; simpl.
    + apply IH; [exact Hd' | exact Hmi | exact Hnan |].
      destruct Hex as [Hp|(y & [Ey|Hy] & Hinf)]; [left; exact Hp| |right; eauto].
      subst y. destruct (sf_is_pinf mp) eqn:Ep; [|left; reflexivity].
      exfalso. apply sf_is_pinf_eq in Ep. subst mp.
      destruct (sf_isnan x) eqn:Enx; [destruct x; cbv in *; congruence|].
      rewrite sf_inf_le in Ele; [discriminate | exact Enx |].
      destruct x as [[]|[]| |[] m e]; cbv in *; congruence.
    + destruct (sf_isnan x) eqn:En.
      * exists x. split; [exact Hx|]. destruct x; simpl in *; congruence.
      * apply IH; [exact Hd' | exact Hx | exact En |]. left.
        destruct (sf_is_pinf x) eqn:Ep; [|reflexivity].
        apply sf_is_pinf_eq in Ep. subst x. rewrite sf_le_inf in Ele by exact Hnan. discriminate.
Qed.

Lemma forallb_false_In {A} (f : A -> bool) l :
  forallb f l = false -> exists x, In x l /\ f x = false.
Proof.
  induction l as [|a l IH]; simpl; [discriminate|]. intros H.
  apply andb_false_iff in H as [H|H]; [exists a; auto|].
  destruct (IH H) as (x & Hx & Hf). exists x. auto.
Qed.

Lemma np_argmin_ok x l :
  forallb sf_isinf (x :: l) = false ->
  exists v, (x :: l) !! np_argmin x l = Some v /\ sf_is_pinf v = false.
Proof.
  intros Hall. unfold np_argmin. destruct (sf_isnan x) eqn:En.
  - exists x. split; [reflexivity|]. destruct x; simpl in *; congruence.
  - apply argmin_go_ok; [reflexivity | reflexivity | exact En |].
    simpl in Hall. apply andb_false_iff in Hall as [Hx|Hl].
    + left. destruct x as [[]|[]| |[] m e]; simpl in *; congruence.
    + right. exact (forallb_false_In _ _ Hl).
Qed.

Lemma count_where_insert {A} (f : A -> bool) l i x y :
  l !! i = Some x -> f x = true -> f y = false ->
  S (count_where f (<[i := y]> l)) = count_where f l.
Proof.
  unfold count_where. revert i. induction l as [|a l IH]; intros i Hi Hx Hy; [discriminate|].
  destruct i as [|i]; simpl in *.
  - injection Hi as ->. rewrite Hx, Hy. reflexivity.
  - destruct (f a); simpl; rewrite <- (IH i Hi Hx Hy); reflexivity.
Qed.

Lemma count_where_le {A} (f : A -> bool) l : (count_where f l <= length l)%nat.
Proof. unfold count_where. apply List.filter_length_le. Qed.

Lemma next_centroid_ok maxd line (visited : list bool) cur fuel (dists : list spec_float) :
  (forall j, visited !! j = Some true -> dists !! j = Some sf_inf) ->
  (count_where (fun d => negb (sf_is_pinf d)) dists < fuel)%nat ->
  exists r, next_centroid maxd line fuel cur dists = Some r /\
    forall j, r = Some j -> (j < length dists)%nat /\ visited !! j <> Some true.
Proof.
  revert dists. induction fuel as [|fuel IH]; intros dists Hv Hc; [lia|].
  simpl. destruct (forallb sf_isinf dists) eqn:Eall.
  { exists None. split; [reflexivity | discriminate]. }
  destruct dists as [|d0 ds] eqn:Ed; [discriminate|].
  rewrite <- Ed in *. 
  destruct (np_argmin_ok d0 ds) as (v & Hv0 & Hpv); [rewrite <- Ed; exact Eall|].
  rewrite <- Ed in Hv0.
  set (k := np_argmin d0 ds) in *.
  assert (Hk : (k < length dists)%nat) by (eapply lookup_lt_Some; exact Hv0).
  assert (Hnv : visited !! k <> Some true).
  { intros E. rewrite (Hv k E) in Hv0. injection Hv0 as <-. discriminate. }
  assert (Hnth : nth k dists sf_inf = v) by (apply nth_lookup_Some; exact Hv0).
  rewrite Hnth.
  assert (Hrec : exists r, next_centroid maxd line fuel cur (<[k := sf_inf]> dists) = Some r /\
            forall j, r = Some j -> (j < length dists)%nat /\ visited !! j <> Some true).
  { destruct (IH (<[k := sf_inf]> dists)) as (r & Er & Hr).
    - intros j Ej. destruct (decide (j = k)) as [->|Hne]; [contradiction|].
      rewrite list_lookup_insert_ne by congruence. apply Hv. exact Ej.
    - pose proof (count_where_insert (fun d => negb (sf_is_pinf d)) dists k v sf_inf Hv0)
        as Hci. cbv beta in Hci. rewrite Hpv in Hci. specialize (Hci eq_refl eq_refl). lia.
    - exists r. split; [exact Er|]. intros j Ej. rewrite <- (length_insert dists k sf_inf).
      apply Hr, Ej. }
  destruct (SFltb maxd v); [exact Hrec|].
  destruct (line cur k); [exact Hrec|].
  exists (Some k). split; [reflexivity|]. intros j Ej. injection Ej as <-. auto.
Qed.

Lemma first_unvisited_ok (visited : list bool) :
  forallb id visited = false ->
  exists u, first_unvisited visited = Some u /\ visited !! u = Some false.
Proof.
  induction visited as [|v vs IH]; simpl; [discriminate|]. intros H.
  destruct v; simpl in *.
  - destruct (IH H) as (u & Eu & Hu). exists (S u). rewrite Eu. auto.
  - exists 0%nat. auto.
Qed.

Lemma NoDup_snoc {A} (l : list A) x : List.NoDup l -> ~ In x l -> List.NoDup (l ++ [x]).
Proof.
  intros Hl Hx. apply (Permutation_NoDup (l := x :: l)); [apply Permutation_cons_append|].
  constructor; assumption.
Qed.

Lemma lookup_map_seq_any {A} (f : nat -> A) s m j :
  (j < m)%nat -> map f (seq s m) !! j = Some (f (s + j)%nat).
Proof.
  revert s j. induction m as [|m IH]; intros s j Hj; [lia|].
  destruct j as [|j]; simpl; [f_equal; f_equal; lia|].
  rewrite IH by lia. f_equal. f_equal. lia.
Qed.

Lemma masked_dists_visited n dist cur (visited : list bool) j :
  length visited = n -> visited !! j = Some true ->
  masked_dists n dist cur visited !! j = Some sf_inf.
Proof.
  intros Hl Hj. assert (Hjn : (j < n)%nat) by (subst n; eapply lookup_lt_Some; exact Hj).
  unfold masked_dists. rewrite lookup_zip_with, Hj. simpl.
  rewrite lookup_map_seq_any by exact Hjn. reflexivity.
Qed.

Lemma masked_dists_length n dist cur (visited : list bool) :
  length visited = n -> length (masked_dists n dist cur visited) = n.
Proof.
  intros Hl. unfold masked_dists. rewrite length_zip_with, length_map, length_seq. lia.
Qed.

Lemma path_inv_visit n visited path j :
  path_inv n visited path -> visited !! j = Some false ->
  path_inv n (<[j := true]> visited) (path ++ [j]) /\
  S (count_where negb (<[j := true]> visited)) = count_where negb visited.
Proof.
  intros (Hl & Hm & Hnd) Hj. split; [split; [|split]|].
  - rewrite length_insert. exact Hl.
  - intros k. rewrite in_app_iff. simpl. destruct (decide (k = j)) as [->|Hne].
    + rewrite list_lookup_insert_eq by (eapply lookup_lt_Some; exact Hj). tauto.
    + rewrite list_lookup_insert_ne by congruence. rewrite Hm. intuition congruence.
  - apply NoDup_snoc; [exact Hnd|]. rewrite <- Hm, Hj. discriminate.
  - apply count_where_insert with (x := false); [exact Hj | reflexivity | reflexivity].
Qed.

Lemma path_loop_ok n dist maxd line fuel visited path :
  path_inv n visited path ->
  (count_where negb visited < fuel)%nat ->
  exists p, path_loop n dist maxd line fuel visited path = Some p /\
    (exists suffix, p = path ++ suffix) /\ List.NoDup p /\
    (forall j, In j p <-> (j < n)%nat).
Proof.
  revert visited path. induction fuel as [|fuel IH]; intros visited path Hinv Hc; [lia|].
  cbn [path_loop]. destruct (forallb id visited) eqn:Eall.
  - exists path. destruct Hinv as (Hl & Hm & Hnd).
    split; [reflexivity|]. split; [exists []; rewrite app_nil_r; reflexivity|].
    split; [exact Hnd|]. intros j. rewrite <- Hm. split.
    + intros Hj. subst n. eapply lookup_lt_Some. exact Hj.
    + intros Hj. rewrite <- Hl in Hj. destruct (lookup_lt_is_Some_2 visited j Hj) as [b Eb].
      rewrite Eb. f_equal. rewrite forallb_forall in Eall.
      apply (Eall b). apply list_elem_of_In. eapply list_elem_of_lookup_2. exact Eb.
  - cbv zeta. set (cur := default 0%nat (last path)).
    assert (Hstep : forall j, visited !! j = Some false ->
              exists p, path_loop n dist maxd line fuel (<[j := true]> visited) (path ++ [j]) = Some p /\
                (exists suffix, p = path ++ suffix) /\ List.NoDup p /\
                (forall k, In k p <-> (k < n)%nat)).
    { intros j Hj. destruct (path_inv_visit _ _ _ _ Hinv Hj) as [Hinv' Hc'].
      destruct (IH _ _ Hinv' ltac:(lia)) as (p & Ep & (suf & ->) & Hp).
      exists ((path ++ [j]) ++ suf). split; [exact Ep|]. split; [|exact Hp].
      exists (j :: suf). rewrite <- app_assoc. reflexivity. }
    destruct Hinv as (Hl & Hm & Hnd) eqn:Hinv0.
    destruct (next_centroid_ok maxd line visited cur (S n) (masked_dists n dist cur visited))
      as (r & Er & Hr).
    + intros j Ej. apply masked_dists_visited; assumption.
    + pose proof (count_where_le (fun d => negb (sf_is_pinf d)) (masked_dists n dist cur visited)).
      rewrite masked_dists_length in H by exact Hl. lia.
    + rewrite Er. destruct r as [j|].
      * destruct (Hr j eq_refl) as [Hj Hnv]. rewrite masked_dists_length in Hj by exact Hl.
        rewrite <- Hl in Hj. destruct (lookup_lt_is_Some_2 visited j Hj) as [[] Eb];
          [contradiction|]. apply Hstep. exact Eb.
      * destruct (first_unvisited_ok visited Eall) as (u & Eu & Hu). rewrite Eu.
        apply Hstep. exact Hu.
Qed.

(** X12. The nearest-neighbour path of the ["optimized_masked"] render mode
    of glyphs.py [image_to_glyph], for [n > 0] centroids and any distances, threshold and
    line test, terminates with a path order that starts at centroid 0 and
    visits every centroid exactly once. *)
Theorem X12_nn_path_visits_each_centroid_once n dist max_distance line_hits_empty :
  (0 < n)%nat ->
  exists p, nn_path_order n dist max_distance line_hits_empty = Some (inr p) /\
    Permutation p (seq 0 n) /\ head p = Some 0%nat.
Proof.
  intros Hn. unfold nn_path_order.
  destruct (Nat.eqb_spec n 0) as [->|_]; [lia|].
  set (v0 := <[0%nat := true]> (replicate n false)).
  assert (Hinv : path_inv n v0 [0%nat]).
  { split; [|split].
    - unfold v0. rewrite length_insert, length_replicate. reflexivity.
    - intros j. simpl. unfold v0. destruct (decide (j = 0%nat)) as [->|Hne].
      + rewrite list_lookup_insert_eq by (rewrite length_replicate; lia). tauto.
      + rewrite list_lookup_insert_ne by congruence. rewrite lookup_replicate.
        split; [intros [E _]; discriminate | intros [E|[]]; congruence].
    - constructor; [intros []|constructor]. }
  assert (Hc : (count_where negb v0 < n)%nat).
  { pose proof (count_where_insert negb (replicate n false) 0 false true) as Hci.
    rewrite lookup_replicate_2 in Hci by lia. specialize (Hci eq_refl eq_refl eq_refl).
    fold v0 in Hci. pose proof (count_where_le negb (replicate n false)).
    rewrite length_replicate in H. lia. }
  destruct (path_loop_ok n dist max_distance line_hits_empty n v0 [0%nat] Hinv Hc)
    as (p & Ep & (suf & ->) & Hnd & Hall).
  exists ([0%nat] ++ suf). rewrite Ep. split; [reflexivity|]. split; [|reflexivity].
  apply Stdlib.Sorting.Permutation.NoDup_Permutation; [exact Hnd | apply seq_NoDup |].
  intros j. rewrite Hall, in_seq. lia.
Qed.

Lemma X12_nn_path_visits_each_centroid_once_witness :
  (0 < 3)%nat /\
  exists p, nn_path_order 3 (fun i j => if Nat.eqb i j then S754_zero false else S754_finite false 1 0)
              sf_inf (fun _ _ => false) = Some (inr p) /\
    Permutation p (seq 0 3) /\ head p = Some 0%nat.
Proof. split; [lia | apply X12_nn_path_visits_each_centroid_once; lia]. Defined.

Lemma count_where_negb_zero (l : list bool) j b :
  count_where negb l = 0%nat -> l !! j = Some b -> b = true.
Proof.
  unfold count_where. revert j. induction l as [|a l IH]; intros j H E; [discriminate|].
  destruct a; simpl in H; [|discriminate].
  destruct j as [|j]; simpl in E; [injection E as <-; reflexivity|]. exact (IH j H E).
Qed.

Lemma count_where_negb_pos (l : list bool) :
  (0 < count_where negb l)%nat -> exists j, l !! j = Some false.
Proof.
  unfold count_where. induction l as [|a l IH]; intros H; [simpl in H; lia|].
  destruct a; simpl in H.
  - destruct (IH H) as [j Hj]. exists (S j). exact Hj.
  - exists 0%nat. reflexivity.
Qed.

Lemma count_where_negb_replicate n : count_where negb (replicate n false) = n.
Proof. unfold count_where. induction n as [|n IH]; simpl; [reflexivity|]. rewrite IH. reflexivity. Qed.

Lemma path_inv_init n :
  (0 < n)%nat ->
  path_inv n (<[0%nat := true]> (replicate n false)) [0%nat] /\
  (S (count_where negb (<[0%nat := true]> (replicate n false))) = n)%nat.
Proof.
  intros Hn. split; [split; [|split]|].
  - rewrite length_insert, length_replicate. reflexivity.
  - intros j. simpl. destruct (decide (j = 0%nat)) as [->|Hne].
    + rewrite list_lookup_insert_eq by (rewrite length_replicate; lia). tauto.
    + rewrite list_lookup_insert_ne by congruence. rewrite lookup_replicate.
      split; [intros [E _]; discriminate | intros [E|[]]; congruence].
  - constructor; [intros []|constructor].
  - rewrite (count_where_insert negb (replicate n false) 0 false true)
      by (try rewrite lookup_replicate_2 by lia; reflexivity).
    apply count_where_negb_replicate.
Qed.

Lemma masked_dists_unvisited n dist cur (visited : list bool) j :
  length visited = n -> visited !! j = Some false ->
  masked_dists n dist cur visited !! j = Some (dist cur j).
Proof.
  intros Hl Hj. assert (Hjn : (j < n)%nat) by (subst n; eapply lookup_lt_Some; exact Hj).
  unfold masked_dists. rewrite lookup_zip_with, Hj. simpl.
  rewrite lookup_map_seq_any by exact Hjn. reflexivity.
Qed.

Lemma greedy_loop_ok n dist k visited path :
  (forall i j, (i < n)%nat -> (j < n)%nat -> sf_isinf (dist i j) = false) ->
  path_inv n visited path -> count_where negb visited = k ->
  exists p, greedy_loop n dist k visited path = inr p /\
    (exists suffix, p = path ++ suffix) /\ List.NoDup p /\
    (forall j, In j p <-> (j < n)%nat).
Proof.
  intros Hfin. revert visited path. induction k as [|k IH]; intros visited path Hinv Hc.
  - exists path. destruct Hinv as (Hl & Hm & Hnd). split; [reflexivity|].
    split; [exists []; rewrite app_nil_r; reflexivity|]. split; [exact Hnd|].
    intros j. rewrite <- Hm. split.
    + intros Hj. subst n. eapply lookup_lt_Some. exact Hj.
    + intros Hj. rewrite <- Hl in Hj. destruct (lookup_lt_is_Some_2 visited j Hj) as [b Eb].
      rewrite Eb. f_equal. exact (count_where_negb_zero visited j b Hc Eb).
  - destruct (count_where_negb_pos visited ltac:(lia)) as [j0 Hj0].
    pose proof Hinv as (Hl & Hm & Hnd).
    assert (Hj0n : (j0 < n)%nat) by (subst n; eapply lookup_lt_Some; exact Hj0).
    set (cur := default 0%nat (last path)).
    assert (Hcur : (cur < n)%nat).
    { unfold cur. destruct (last path) as [c|] eqn:El; simpl; [|lia].
      apply last_Some_elem_of, list_elem_of_In, Hm in El.
      subst n. eapply lookup_lt_Some. exact El. }
    cbn [greedy_loop]. fold cur.
    destruct (masked_dists n dist cur visited) as [|d0 ds] eqn:Ed.
    + pose proof (masked_dists_length n dist cur visited Hl) as H. rewrite Ed in H.
      simpl in H. lia.
    + destruct (np_argmin_ok d0 ds) as (v & Hv & Hpinf).
      * apply not_true_iff_false. intros Hall.
        pose proof (masked_dists_unvisited n dist cur visited j0 Hl Hj0) as E0.
        rewrite Ed in E0. apply list_elem_of_lookup_2, list_elem_of_In in E0.
        rewrite forallb_forall in Hall. specialize (Hall _ E0).
        rewrite (Hfin cur j0 Hcur Hj0n) in Hall. discriminate.
      * rewrite <- Ed in Hv. set (next := np_argmin d0 ds) in *.
        assert (Hnext : visited !! next = Some false).
        { assert (Hlt : (next < length visited)%nat).
          { rewrite Hl, <- (masked_dists_length n dist cur visited Hl).
            eapply lookup_lt_Some. exact Hv. }
          destruct (lookup_lt_is_Some_2 visited next Hlt) as [[] Eb]; [|exact Eb].
          rewrite (masked_dists_visited n dist cur visited next Hl Eb) in Hv.
          injection Hv as <-. discriminate. }
        destruct (path_inv_visit _ _ _ _ Hinv Hnext) as [Hinv' Hc'].
        destruct (IH _ _ Hinv' ltac:(lia)) as (p & Ep & (suf & ->) & Hp).
        exists ((path ++ [next]) ++ suf). split; [exact Ep|]. split; [|exact Hp].
        exists (next :: suf). rewrite <- app_assoc. reflexivity.
Qed.

(** X13. The path of the plain ["optimized"] render mode of glyphs.py
    [image_to_glyph] (greedy nearest neighbour through [np.argmin]), for
    [n > 0] centroids whose pairwise distances are not infinite, is a path
    order that starts at centroid 0 and visits every centroid exactly once. *)
Theorem X13_greedy_path_visits_each_centroid_once n dist :
  (0 < n)%nat ->
  (forall i j, (i < n)%nat -> (j < n)%nat -> sf_isinf (dist i j) = false) ->
  exists p, greedy_path_order n dist = inr p /\
    Permutation p (seq 0 n) /\ head p = Some 0%nat.
Proof.
  intros Hn Hfin. unfold greedy_path_order.
  destruct (Nat.eqb_spec n 0) as [->|_]; [lia|].
  destruct (path_inv_init n Hn) as [Hinv Hc].
  destruct (greedy_loop_ok n dist (n - 1) _ _ Hfin Hinv ltac:(lia))
    as (p & Ep & (suf & ->) & Hnd & Hall).
  exists ([0%nat] ++ suf). split; [exact Ep|]. split; [|reflexivity].
  apply Stdlib.Sorting.Permutation.NoDup_Permutation; [exact Hnd | apply seq_NoDup |].
  intros j. rewrite Hall, in_seq. lia.
Qed.

Lemma X13_greedy_path_visits_each_centroid_once_witness :
  (0 < 3)%nat /\
  (forall i j, (i < 3)%nat -> (j < 3)%nat -> sf_isinf (line_dist i j) = false) /\
  exists p, greedy_path_order 3 line_dist = inr p /\
    Permutation p (seq 0 3) /\ head p = Some 0%nat.
Proof.
  assert (Hfin : forall i j, (i < 3)%nat -> (j < 3)%nat -> sf_isinf (line_dist i j) = false).
  { intros i j _ _. unfold line_dist. destruct (Z.abs _); reflexivity. }
  split; [lia|]. split; [exact Hfin|].
  apply X13_greedy_path_visits_each_centroid_once; [lia | exact Hfin].
Defined.
